(** * django_translate_gettext.services.translators

    A shallow embedding of [PoFileTranslator] and [MultilineText]
    (src/django_translate_gettext/services/translators.py) together with the
    parts of Python's [str] and [re] that the two classes use, and the
    properties of the catalog rewriter proved on that embedding.

    Conventions.
    - A Python [str] is a list of Unicode code points ([N]).
    - An exception is a value of [exn]; a computation that may raise, or may
      loop for ever, returns an [outcome].
    - Calls to the translation backend and the catalog files are threaded
      through an explicit [world]. *)

From Stdlib Require Import String Ascii ZArith NArith Bool List Lia.
Import ListNotations.

Set Implicit Arguments.

(* ================================================================== *)
(** ** Python strings *)

Module Py.

Definition char := N.
Definition str := list char.

(** A literal: the code points of an ASCII text. *)
Definition lit (s : string) : str := map N_of_ascii (list_ascii_of_string s).

Definition DQ : char := 34%N.   (* the double quote *)
Definition SQ : char := 39%N.   (* the single quote *)
Definition NL : char := 10%N.   (* line feed *)
Definition BS : char := 92%N.   (* the backslash *)
Definition SP : char := 32%N.   (* the space *)

Fixpoint str_eqb (a b : str) : bool :=
  match a, b with
  | [], [] => true
  | x :: a', y :: b' => N.eqb x y && str_eqb a' b'
  | _, _ => false
  end.

(** [v in l] for a list of strings. *)
Definition str_in (v : str) (l : list str) : bool := existsb (str_eqb v) l.

(** Equality of two lists of strings ([ls != []] and the like). *)
Fixpoint strs_eqb (a b : list str) : bool :=
  match a, b with
  | [], [] => true
  | x :: a', y :: b' => str_eqb x y && strs_eqb a' b'
  | _, _ => false
  end.

(** [len(s)] as a Python int. *)
Definition len {A} (l : list A) : Z := Z.of_nat (length l).

(** An index of a slice, brought into [0 .. n] the way Python does: a
    negative index counts from the end, and both ends are clipped. *)
Definition clip (n i : Z) : Z :=
  if (i <? 0)%Z then Z.max (i + n) 0 else Z.min i n.

(** [s[start:stop]]; [None] is an omitted bound. *)
Definition slice {A} (s : list A) (start stop : option Z) : list A :=
  let n := len s in
  let lo := match start with None => 0%Z | Some i => clip n i end in
  let hi := match stop with None => n | Some j => clip n j end in
  firstn (Z.to_nat (hi - lo)) (skipn (Z.to_nat lo) s).

(** [l[i]] on a list or a string; [None] stands for [IndexError]. *)
Definition item {A} (l : list A) (i : Z) : option A :=
  let n := len l in
  let k := if (i <? 0)%Z then (i + n)%Z else i in
  if ((k <? 0) || (n <=? k))%Z then None else nth_error l (Z.to_nat k).

(** [l[i] = v]; [None] stands for [IndexError]. *)
Fixpoint set_nth {A} (l : list A) (k : nat) (v : A) : list A :=
  match l, k with
  | [], _ => []
  | _ :: l', O => v :: l'
  | x :: l', S k' => x :: set_nth l' k' v
  end.

Definition set_item {A} (l : list A) (i : Z) (v : A) : option (list A) :=
  let n := len l in
  let k := if (i <? 0)%Z then (i + n)%Z else i in
  if ((k <? 0) || (n <=? k))%Z then None else Some (set_nth l (Z.to_nat k) v).

(** [str.isspace] on one code point: the white space of [str.strip] and
    [str.split]. *)
Definition isspace (c : char) : bool :=
  ((9 <=? c) && (c <=? 13) || (28 <=? c) && (c <=? 32)
   || (c =? 133) || (c =? 160) || (c =? 5760)
   || (8192 <=? c) && (c <=? 8202)
   || (c =? 8232) || (c =? 8233) || (c =? 8239) || (c =? 8287)
   || (c =? 12288))%N.

Fixpoint lstrip (s : str) : str :=
  match s with
  | c :: s' => if isspace c then lstrip s' else s
  | [] => []
  end.

Definition rstrip (s : str) : str := rev (lstrip (rev s)).

(** [s.strip()] *)
Definition strip (s : str) : str := rstrip (lstrip s).

(** [s.split()]: the maximal runs of characters that are not white space.
    [word] holds the current run, reversed. *)
Fixpoint split_ws_from (word : str) (s : str) : list str :=
  match s with
  | [] => match word with [] => [] | _ => [rev word] end
  | c :: s' =>
      if isspace c
      then match word with
           | [] => split_ws_from [] s'
           | _ => rev word :: split_ws_from [] s'
           end
      else split_ws_from (c :: word) s'
  end.

Definition split_ws (s : str) : list str := split_ws_from [] s.

Fixpoint starts_with (p s : str) : bool :=
  match p, s with
  | [], _ => true
  | x :: p', y :: s' => N.eqb x y && starts_with p' s'
  | _ :: _, [] => false
  end.

(** [s.split(sep)] for a separator that is not empty: cut at the leftmost
    occurrences that do not overlap.  [skip] counts the characters of a
    separator still to pass, [piece] holds the current piece, reversed. *)
Fixpoint split_from (sep : str) (skip : nat) (piece : str) (s : str) : list str :=
  match s with
  | [] => [rev piece]
  | c :: s' =>
      match skip with
      | S k => split_from sep k piece s'
      | O =>
          if starts_with sep s
          then rev piece :: split_from sep (length sep - 1) [] s'
          else split_from sep 0 (c :: piece) s'
      end
  end.

Definition split (sep s : str) : list str := split_from sep 0 [] s.

(** [sep.join(parts)] *)
Fixpoint join (sep : str) (parts : list str) : str :=
  match parts with
  | [] => []
  | [p] => p
  | p :: rest => p ++ sep ++ join sep rest
  end.

(** [''.join([' ' for i in range(n)])] *)
Definition spaces (n : Z) : str := repeat SP (Z.to_nat n).

End Py.
Import Py.

(* ================================================================== *)
(** ** Exceptions and outcomes *)

(** What the translation backend (deep_translator) raises. *)
Inductive backend_exn :=
| LanguageNotSupportedException
| BackendFailure (code : nat).

(** - [IndexError]: an index out of range on a list or a string;
    - [AttributeError]: an attribute read before it was set;
    - [TypeError]: [range(None)];
    - [OSError]: a file that cannot be read;
    - [TemplateError]: [re.sub] rejects its replacement template
      ([re.error], or [IndexError] for a group name that no group has);
    - [TranslatorError msg cause]: [raise TranslatorError(msg)], with the
      exception it was raised [from];
    - [BackendError e]: an exception of the backend, passed on as it is. *)
Inductive exn :=
| IndexError
| AttributeError
| TypeError
| OSError
| TemplateError
| TranslatorError (message : str) (cause : option backend_exn)
| BackendError (e : backend_exn).

(** [Diverge]: the call never returns. *)
Inductive outcome (A : Type) :=
| Return (a : A)
| Raise (e : exn)
| Diverge.

Arguments Return {A} a.
Arguments Raise {A} e.
Arguments Diverge {A}.

Definition obind {A B} (m : outcome A) (f : A -> outcome B) : outcome B :=
  match m with
  | Return a => f a
  | Raise e => Raise e
  | Diverge => Diverge
  end.

(** An index that may be out of range. *)
Definition indexed {A} (o : option A) : outcome A :=
  match o with
  | Some a => Return a
  | None => Raise IndexError
  end.

(* ================================================================== *)
(** ** Python's [re], as far as this program uses it *)

Module Re.

(** The patterns of the program are built from literal characters, [.],
    capture groups and the repetitions [*], [+] and [*?]. *)
Inductive regex :=
| Eps
| Chr (c : char)
| Dot
| Seq (r1 r2 : regex)
| Group (n : nat) (r : regex)
| Repeat (greedy : bool) (min : nat) (r : regex).

(** The text of a literal, one [Chr] after the other. *)
Fixpoint text (s : str) : regex :=
  match s with
  | [] => Eps
  | c :: s' => Seq (Chr c) (text s')
  end.

Fixpoint seq (rs : list regex) : regex :=
  match rs with
  | [] => Eps
  | r :: rs' => Seq r (seq rs')
  end.

Definition star (r : regex) := Repeat true 0 r.
Definition plus (r : regex) := Repeat true 1 r.
Definition lazy_star (r : regex) := Repeat false 0 r.

(** The groups that took part in a match, the latest binding first. *)
Definition caps := list (nat * str).

Fixpoint capture (c : caps) (n : nat) : option str :=
  match c with
  | [] => None
  | (m, t) :: c' => if Nat.eqb m n then Some t else capture c' n
  end.

(** [m.group(n)] as [findall] and [sub] see it: a group that did not take
    part gives the empty string. *)
Definition group (c : caps) (n : nat) : str :=
  match capture c n with
  | Some t => t
  | None => []
  end.

(** The text between the position with [s] left and the later position
    with [s'] left. *)
Definition consumed (s s' : str) : str := firstn (length s - length s') s.

(** A repetition may start another iteration only if the position moved
    since the previous iteration started (sre's guard against iterations
    that match nothing). *)
Definition moved (last : option nat) (s : str) : bool :=
  match last with
  | None => true
  | Some n => negb (Nat.eqb n (length s))
  end.

(** The backtracking matcher, in continuation-passing style: [rmatch r s c k]
    matches [r] at the start of [s] and hands what is left, and the groups,
    to [k]; the alternatives are tried in the order of sre (a greedy
    repetition tries one more iteration first, a lazy one tries what follows
    first).  [fuel] bounds the iterations of one repetition by the length
    of the text: every iteration but the last consumes a character, since an
    iteration that consumes nothing ends the repetition. *)
Fixpoint rmatch (r : regex) (s : str) (c : caps)
    (k : str -> caps -> option (str * caps)) {struct r} : option (str * caps) :=
  match r with
  | Eps => k s c
  | Chr a =>
      match s with
      | x :: s' => if N.eqb x a then k s' c else None
      | [] => None
      end
  | Dot =>
      match s with
      | x :: s' => if N.eqb x NL then None else k s' c
      | [] => None
      end
  | Seq r1 r2 => rmatch r1 s c (fun s' c' => rmatch r2 s' c' k)
  | Group n r1 => rmatch r1 s c (fun s' c' => k s' ((n, consumed s s') :: c'))
  | Repeat greedy min body =>
      (fix loop (fuel count : nat) (last : option nat) (s : str) (c : caps)
           {struct fuel} : option (str * caps) :=
         match fuel with
         | O => None
         | S fuel' =>
             if Nat.ltb count min
             then rmatch body s c (fun s' c' => loop fuel' (S count) last s' c')
             else if greedy
             then
               match
                 (if moved last s
                  then rmatch body s c
                         (fun s' c' => loop fuel' (S count) (Some (length s)) s' c')
                  else None)
               with
               | Some m => Some m
               | None => k s c
               end
             else
               match k s c with
               | Some m => Some m
               | None =>
                   if moved last s
                   then rmatch body s c
                          (fun s' c' => loop fuel' (S count) (Some (length s)) s' c')
                   else None
               end
         end) (min + length s + 3) 0 None s c
  end.

(** [pattern.match]: a match at the start of [s]; what is left, and the groups. *)
Definition match_at (r : regex) (s : str) : option (str * caps) :=
  rmatch r s [] (fun s' c => Some (s', c)).

(** One match found by a search. *)
Record found := Found {
  before : str;      (* the text passed over *)
  whole : str;       (* the text matched: group 0 *)
  groups : caps;
  after : str        (* the text left *)
}.

(** [pattern.search]: the leftmost match.  [passed] is the text passed over,
    reversed. *)
Fixpoint search_from (r : regex) (passed : str) (s : str) : option found :=
  match match_at r s with
  | Some (s', c) => Some (Found (rev passed) (consumed s s') c s')
  | None =>
      match s with
      | [] => None
      | x :: s' => search_from r (x :: passed) s'
      end
  end.

Definition search (r : regex) (s : str) : option found := search_from r [] s.

(** The successive matches of [findall] and [sub], left to right without
    overlap, and the text after the last one.  No pattern of this program
    matches the empty text; the scan is written for such patterns and ends
    at an empty match. *)
Fixpoint scan (fuel : nat) (r : regex) (s : str) : list found * str :=
  match fuel with
  | O => ([], s)
  | S fuel' =>
      match search r s with
      | None => ([], s)
      | Some f =>
          match whole f with
          | [] => ([], s)
          | _ :: _ =>
              let (fs, rest) := scan fuel' r (after f) in (f :: fs, rest)
          end
      end
  end.

Definition matches (r : regex) (s : str) : list found * str :=
  scan (S (length s)) r s.

(** [re.findall(r, s)] for a pattern with one group: the texts of group 1. *)
Definition findall1 (r : regex) (s : str) : list str :=
  map (fun f => group (groups f) 1) (fst (matches r s)).

(** [re.findall(r, s)] for a pattern with [n >= 2] groups: the tuples of the
    texts of groups [1 .. n]. *)
Definition findall_tuples (n : nat) (r : regex) (s : str) : list (list str) :=
  map (fun f => map (group (groups f)) (List.seq 1 n)) (fst (matches r s)).

(** *** Replacement templates ([re.sub] with a string) *)

(** The tokens of the template: a character, or a backslash with the
    character after it. *)
Inductive token :=
| TChar (c : char)
| TEsc (c : char).

(** [None]: the template ends in a lone backslash. *)
Fixpoint tokenize (s : str) : option (list token) :=
  match s with
  | [] => Some []
  | c :: s' =>
      if N.eqb c BS
      then match s' with
           | [] => None
           | e :: s'' => option_map (cons (TEsc e)) (tokenize s'')
           end
      else option_map (cons (TChar c)) (tokenize s')
  end.

(** A parsed template: literal text and references to groups. *)
Inductive piece :=
| Literal (t : str)
| Ref (n : nat).

Definition is_digit (c : char) : bool := ((48 <=? c) && (c <=? 57))%N.
Definition is_octdigit (c : char) : bool := ((48 <=? c) && (c <=? 55))%N.
Definition is_ascii_letter (c : char) : bool :=
  ((65 <=? c) && (c <=? 90) || (97 <=? c) && (c <=? 122))%N.
Definition digit_value (c : char) : N := (c - 48)%N.

(** [int(name)] and [int(name, 8)] on digits. *)
Definition number (base : N) (digits : str) : N :=
  fold_left (fun acc d => (acc * base + digit_value d)%N) digits 0%N.

(** The escapes that stand for one character: a, b, f, n, r, t, v and the
    backslash. *)
Definition escape (c : char) : option char :=
  if N.eqb c 97 then Some 7%N
  else if N.eqb c 98 then Some 8%N
  else if N.eqb c 102 then Some 12%N
  else if N.eqb c 110 then Some 10%N
  else if N.eqb c 114 then Some 13%N
  else if N.eqb c 116 then Some 9%N
  else if N.eqb c 118 then Some 11%N
  else if N.eqb c BS then Some BS
  else None.

(** The name of [\g<name>]: the tokens up to the closing [>], and the tokens
    after it.  An escaped character makes the name invalid. *)
Fixpoint group_name (toks : list token) : option (str * list token) :=
  match toks with
  | [] => None
  | TChar c :: rest =>
      if N.eqb c 62 then Some ([], rest)
      else match group_name rest with
           | Some (name, rest') => Some (c :: name, rest')
           | None => None
           end
  | TEsc _ :: _ => None
  end.

(** A reference to group [n] of a pattern with [ngroups] groups. *)
Definition ref (ngroups : nat) (n : N) (rest : option (list piece))
  : option (list piece) :=
  if (N.of_nat ngroups <? n)%N then None
  else option_map (cons (Ref (N.to_nat n))) rest.

(** [parse_template]; [None]: the template is rejected. *)
Fixpoint parse (fuel : nat) (ngroups : nat) (toks : list token)
  : option (list piece) :=
  match fuel with
  | O => None
  | S fuel' =>
      let continue := parse fuel' ngroups in
      match toks with
      | [] => Some []
      | TChar c :: rest => option_map (cons (Literal [c])) (continue rest)
      | TEsc c :: rest =>
          if N.eqb c 103 then                                  (* \g<name> *)
            match rest with
            | TChar 60%N :: rest1 =>
                match group_name rest1 with
                | Some (name, rest2) =>
                    match name with
                    | [] => None
                    | _ :: _ =>
                        if forallb is_digit name
                        then ref ngroups (number 10 name) (continue rest2)
                        else None
                    end
                | None => None
                end
            | _ => None
            end
          else if N.eqb c 48 then                              (* \0, octal *)
            match rest with
            | TChar d1 :: TChar d2 :: rest2 =>
                if is_octdigit d1 && is_octdigit d2
                then option_map
                       (cons (Literal [N.land (number 8 [d1; d2]) 255]))
                       (continue rest2)
                else if is_octdigit d1
                then option_map (cons (Literal [number 8 [d1]]))
                       (continue (TChar d2 :: rest2))
                else option_map (cons (Literal [0%N])) (continue rest)
            | TChar d1 :: rest1 =>
                if is_octdigit d1
                then option_map (cons (Literal [number 8 [d1]])) (continue rest1)
                else option_map (cons (Literal [0%N])) (continue rest)
            | _ => option_map (cons (Literal [0%N])) (continue rest)
            end
          else if is_digit c then                       (* \1 .. \99, octal *)
            match rest with
            | TChar d1 :: rest1 =>
                if is_digit d1
                then
                  match rest1 with
                  | TChar d2 :: rest2 =>
                      if is_octdigit c && is_octdigit d1 && is_octdigit d2
                      then
                        if (255 <? number 8 [c; d1; d2])%N then None
                        else option_map
                               (cons (Literal [number 8 [c; d1; d2]]))
                               (continue rest2)
                      else ref ngroups (number 10 [c; d1]) (continue rest1)
                  | _ => ref ngroups (number 10 [c; d1]) (continue rest1)
                  end
                else ref ngroups (number 10 [c]) (continue rest)
            | _ => ref ngroups (number 10 [c]) (continue rest)
            end
          else
            match escape c with
            | Some e => option_map (cons (Literal [e])) (continue rest)
            | None =>
                if is_ascii_letter c then None
                else option_map (cons (Literal [BS; c])) (continue rest)
            end
      end
  end.

Definition parse_template (ngroups : nat) (repl : str) : option (list piece) :=
  match tokenize repl with
  | Some toks => parse (S (length toks)) ngroups toks
  | None => None
  end.

(** The replacement for one match. *)
Fixpoint expand (tpl : list piece) (f : found) : str :=
  match tpl with
  | [] => []
  | Literal t :: tpl' => t ++ expand tpl' f
  | Ref O :: tpl' => whole f ++ expand tpl' f
  | Ref n :: tpl' => group (groups f) n ++ expand tpl' f
  end.

Fixpoint substitute (tpl : list piece) (fs : list found) (rest : str) : str :=
  match fs with
  | [] => rest
  | f :: fs' => before f ++ expand tpl f ++ substitute tpl fs' rest
  end.

(** [re.sub(r, repl, s)] for a pattern with [ngroups] groups and a string
    [repl]: the template is parsed first, also when nothing matches. *)
Definition sub (ngroups : nat) (r : regex) (repl : str) (s : str) : outcome str :=
  match parse_template ngroups repl with
  | None => Raise TemplateError
  | Some tpl => let (fs, rest) := matches r s in Return (substitute tpl fs rest)
  end.

End Re.

(* ================================================================== *)
(** ** The world: the translation backend and the catalog files *)

(** What [self.translator.translate(text)] gives back. *)
Inductive reply :=
| Translated (t : str)
| Failed (e : backend_exn).

(** A translator bound to one target language: its reply may depend on the
    texts it was sent before. *)
Definition Translator := list str -> str -> reply.

(** What [GoogleTranslator(source='auto', target=lang_code)] gives back. *)
Inductive construct :=
| Built (t : Translator)
| Refused (e : backend_exn).

(** A [Path], by its components. *)
Definition path := list str.

(** - [requests]: the texts sent to the backend so far, the oldest first;
    - [files]: the text of each file that exists, as [read_text] returns it. *)
Record world := World {
  requests : list str;
  files : path -> option str
}.

Definition path_eqb (p q : path) : bool := strs_eqb p q.

Definition write_file (fs : path -> option str) (p : path) (t : str)
  : path -> option str :=
  fun q => if path_eqb p q then Some t else fs q.

(** Computations in the world. *)
Definition M (A : Type) := world -> outcome A * world.

Definition ret {A} (a : A) : M A := fun w => (Return a, w).

Definition bind {A B} (m : M A) (f : A -> M B) : M B :=
  fun w =>
    match m w with
    | (Return a, w') => f a w'
    | (Raise e, w') => (Raise e, w')
    | (Diverge, w') => (Diverge, w')
    end.

(** A step that does not touch the world. *)
Definition pure {A} (o : outcome A) : M A := fun w => (o, w).

Notation "x <- m ;; k" := (bind m (fun x => k))
  (at level 61, m at next level, right associativity).
Notation "x <~ m ;; k" := (obind m (fun x => k))
  (at level 61, m at next level, right associativity).

(** [tr.translate(text)] *)
Definition translate (tr : Translator) (text : str) : M str :=
  fun w =>
    let w' := World (requests w ++ [text]) (files w) in
    match tr (requests w) text with
    | Translated t => (Return t, w')
    | Failed e => (Raise (BackendError e), w')
    end.

(** [p.exists()], [p.read_text()], [p.write_text(t)] *)
Definition exists_ (p : path) : M bool :=
  fun w => (Return (match files w p with Some _ => true | None => false end), w).

Definition read_text (p : path) : M str :=
  fun w =>
    match files w p with
    | Some t => (Return t, w)
    | None => (Raise OSError, w)
    end.

Definition write_text (p : path) (t : str) : M unit :=
  fun w => (Return tt, World (requests w) (write_file (files w) p t)).

(* ================================================================== *)
(** ** class MultilineText *)

Definition quoted (s : str) : str := DQ :: s ++ [DQ].

(** The pattern of [get_regex_block] (line 177), with Q for the double
    quote: [(msgid Q(.*?)Q\nQ\\nQ\n)((Q.*Q\n)+)(msgstr)]. *)
Definition multiline_pattern : Re.regex :=
  Re.seq
    [ Re.Group 1
        (Re.seq [ Re.text (lit "msgid " ++ [DQ]);
                  Re.Group 2 (Re.lazy_star Re.Dot);
                  Re.text ([DQ; NL; DQ] ++ lit "\n" ++ [DQ; NL]) ]);
      Re.Group 3
        (Re.plus
           (Re.Group 4
              (Re.seq [ Re.Chr DQ; Re.star Re.Dot; Re.Chr DQ; Re.Chr NL ])));
      Re.Group 5 (Re.text (lit "msgstr")) ].

(** The attributes of a [MultilineText]; [indentation_depth] starts as
    [None], [content] is unset until [get_content] has run. *)
Record MultilineText := {
  block : str;
  regex_block : list str;
  indentation_depth : option Z;
  content : option str
}.

(** [get_regex_block(block)]: the groups of the first match, or [()]. *)
Definition get_regex_block (block : str) : list str :=
  match Re.findall_tuples 5 multiline_pattern block with
  | t :: _ => t
  | [] => []
  end.

(** [MultilineText(block, regex_block=regex)].  A tuple never equals [''],
    so the constructor keeps the tuple it is given. *)
Definition MultilineText_init (block : str) (regex_block : list str)
  : MultilineText :=
  {| block := block; regex_block := regex_block;
     indentation_depth := None; content := None |}.

(** [try_create_multline(block)]; [None] is Python's [None]. *)
Definition try_create_multline (block : str) : option MultilineText :=
  let regex := get_regex_block block in
  if (0 <? len regex)%Z then Some (MultilineText_init block regex) else None.

Definition is_quote (c : char) : bool := N.eqb c DQ || N.eqb c SQ.

(** [get_indentation_depth(string)]: the first assignment to [reduced] is
    overwritten by the second. *)
Definition get_indentation_depth (string : str) : outcome Z :=
  first <~ indexed (item string 0) ;;
  let reduced := if is_quote first then slice string (Some 1%Z) None else string in
  last <~ indexed (item string (-1)) ;;
  let reduced := if is_quote last then slice string None (Some (-2)%Z) else string in
  Return (len reduced + 1)%Z.

Definition check_strings : list str := [lit "msgid"; []; lit "msgstr"; lit "\n"].
Definition check_punctuation : list str := [[]; [DQ]; [SQ]; [DQ; DQ]; [SQ; SQ]].

(** [not self.indentation_depth] *)
Definition unset (depth : option Z) : bool :=
  match depth with
  | None => true
  | Some d => (d =? 0)%Z
  end.

(** The loop over the fragments of one line:
    [for s in stripped.split(sep)], [sep] a line feed between two double
    quotes. *)
Fixpoint clean_fragments (fragments : list str) (depth : option Z) (cleaned : list str)
  : outcome (option Z * list str) :=
  match fragments with
  | [] => Return (depth, cleaned)
  | s :: rest =>
      if str_in (strip s) check_punctuation
      then
        if unset depth
        then d <~ get_indentation_depth s ;; clean_fragments rest (Some d) cleaned
        else clean_fragments rest depth cleaned
      else clean_fragments rest depth (cleaned ++ [s])
  end.

(** [not any(map(lambda v: v in ls, check_strings)) and ls != []] *)
Definition carries_text (line : str) : bool :=
  let ls := split_ws line in
  negb (existsb (fun v => str_in v ls) check_strings) && negb (strs_eqb ls []).

(** [if cleaned[-3:] == '\\n': cleaned = cleaned[-3:]] *)
Definition remove_escaped_newline (cleaned : str) : str :=
  if str_eqb (slice cleaned (Some (-3)%Z) None) (lit "\n")
  then slice cleaned (Some (-3)%Z) None
  else cleaned.

(** The loop over the groups: [for line in self.regex_block]. *)
Fixpoint scan_lines (lines : list str) (depth : option Z) (mightBeContent : list str)
  : outcome (option Z * list str) :=
  match lines with
  | [] => Return (depth, mightBeContent)
  | line :: rest =>
      if carries_text line
      then
        let stripped := strip (slice line (Some 1%Z) (Some (-1)%Z)) in
        r <~ clean_fragments (split [DQ; NL; DQ] stripped) depth [] ;;
        let cleaned := remove_escaped_newline (join [] (snd r)) in
        if negb (str_eqb cleaned [])
        then scan_lines rest (fst r) (mightBeContent ++ [cleaned])
        else scan_lines rest (fst r) mightBeContent
      else scan_lines rest depth mightBeContent
  end.

(** [get_content()]: the object with [indentation_depth] and [content] set. *)
Definition get_content (self : MultilineText) : outcome MultilineText :=
  r <~ scan_lines (regex_block self) (indentation_depth self) [] ;;
  let depth := if unset (fst r) then Some 0%Z else fst r in
  Return {| block := block self; regex_block := regex_block self;
            indentation_depth := depth;
            content := Some (join [SP] (snd r)) |}.

(* ================================================================== *)
(** ** class PoFileTranslator *)

Record PoFileTranslator := {
  lang_code : str;
  locale_paths : list path;
  translator : Translator
}.

Definition unsupported_message (lang_code : str) : str :=
  lit "Language code " ++ lang_code ++ lit " is not supported by the translator".

Definition missing_message (lang_code : str) : str :=
  lit "The file for code " ++ lang_code ++ lit " does not exist.".

(** [PoFileTranslator(lang_code)], given [settings.LOCALE_PATHS] and the
    backend's constructor: only [LanguageNotSupportedException] is caught. *)
Definition PoFileTranslator_init (LOCALE_PATHS : list path)
    (GoogleTranslator : str -> construct) (lang_code : str)
  : outcome PoFileTranslator :=
  match GoogleTranslator lang_code with
  | Built t =>
      Return {| lang_code := lang_code; locale_paths := LOCALE_PATHS;
                translator := t |}
  | Refused LanguageNotSupportedException =>
      Raise (TranslatorError (unsupported_message lang_code)
                             (Some LanguageNotSupportedException))
  | Refused e => Raise (BackendError e)
  end.

(** The patterns of lines 23 and 76, of line 27 and of lines 32 and 89, with
    Q for the double quote: [msgstr Q(.*?)Q], [msgstr Q(.*?)*Q] and
    [msgid Q(.*?)Q]. *)
Definition msgstr_value : Re.regex :=
  Re.seq [ Re.text (lit "msgstr " ++ [DQ]); Re.Group 1 (Re.lazy_star Re.Dot);
           Re.Chr DQ ].

Definition msgstr_field : Re.regex :=
  Re.seq [ Re.text (lit "msgstr " ++ [DQ]);
           Re.star (Re.Group 1 (Re.lazy_star Re.Dot)); Re.Chr DQ ].

Definition msgid_value : Re.regex :=
  Re.seq [ Re.text (lit "msgid " ++ [DQ]); Re.Group 1 (Re.lazy_star Re.Dot);
           Re.Chr DQ ].

(** [if msgstr and msgstr[0]] *)
Definition already_translated (msgstr : list str) : bool :=
  match msgstr with
  | (_ :: _) :: _ => true
  | _ => false
  end.

Definition translate_block (self : PoFileTranslator) (block : str) (msgid : list str)
  : M str :=
  let msgstr := Re.findall1 msgstr_value block in
  if already_translated msgstr then ret block
  else
    source <- pure (indexed (item msgid 0)) ;;
    translated <- translate (translator self) source ;;
    pure (Re.sub 1 msgstr_field (lit "msgstr " ++ quoted translated) block).

Definition process_first_block (self : PoFileTranslator) (block : str) : M str :=
  let parts := split [NL] block in
  raw_msgid <- pure (indexed (item parts (-2))) ;;
  raw_msgstr <- pure (indexed (item parts (-1))) ;;
  let msgid := Re.findall1 msgid_value raw_msgid in
  last <- translate_block self raw_msgstr msgid ;;
  parts' <- pure (indexed (set_item parts (-1) last)) ;;
  ret (join [NL] parts').

Definition chunk_size : Z := 80.

(** The loop [while i < chunks] of [translate_multi_line_block], from the
    cursor [i] and the lines emitted so far; [None]: the iterations allowed
    by [fuel] did not end it. *)
Fixpoint wrap_loop (fuel : nat) (translated : str) (depth : Z) (i : Z)
    (lines : list str) : option (list str) :=
  let chunks := len translated in
  if (i <? chunks)%Z then
    match fuel with
    | O => None
    | S fuel' =>
        let j := Z.min (chunk_size + i) chunks in
        if (i =? 0)%Z then
          wrap_loop fuel' translated depth (i + (chunk_size - depth))
            (lines ++ [quoted (spaces depth
                               ++ slice translated (Some i) (Some (j - depth)%Z))])
        else if str_eqb (slice translated (Some i) (Some j)) [] then
          wrap_loop fuel' translated depth (i + chunk_size) lines
        else if str_eqb (slice (slice translated (Some i) (Some j)) (Some (-2)%Z) None)
                        (lit "\n") then
          wrap_loop fuel' translated depth (i + chunk_size)
            (lines ++ [quoted (slice (slice translated (Some i) (Some j))
                                     None (Some (-2)%Z))])
        else
          wrap_loop fuel' translated depth (i + chunk_size)
            (lines ++ [quoted (slice translated (Some i) (Some j))])
    end
  else Some lines.

(** Iterations enough to end the loop whenever it ends (see
    [wrap_terminates] and [wrap_diverges]). *)
Definition wrap_fuel (translated : str) (depth : Z) : nat :=
  Z.to_nat (len translated + Z.abs depth + 2).

(** The lines emitted by the loop, from [i = 0] and [lines = []]. *)
Definition wrap (translated : str) (depth : Z) : outcome (list str) :=
  match wrap_loop (wrap_fuel translated depth) translated depth 0 [] with
  | Some lines => Return lines
  | None => Diverge
  end.

(** ['\\\\n']: two backslashes and an n. *)
Definition marker : str := [BS; BS; 110%N].

(** [lines[-1] = lines[-1][:-1] + marker + Q], with Q the double quote. *)
Definition close_last_line (lines : list str) : outcome (list str) :=
  last <~ indexed (item lines (-1)) ;;
  indexed (set_item lines (-1) (slice last None (Some (-1)%Z) ++ marker ++ [DQ])).

(** The wrapped lines of a translated text, as they stand when the loop is
    over and the last one is closed. *)
Definition emitted_lines (translated : str) (depth : Z) : outcome (list str) :=
  lines <~ wrap translated depth ;;
  close_last_line lines.

(** The list [replace]. *)
Definition replacement (depth : Z) (lines : list str) : list str :=
  [ [DQ; DQ]; quoted marker; quoted (spaces depth) ]
    ++ lines ++ [ quoted (spaces depth) ].

(** The template handed to [re.sub]: the text [msgstr ] and the elements of
    [replace], joined by line feeds. *)
Definition msgstr_template (depth : Z) (lines : list str) : str :=
  lit "msgstr " ++ join [NL] (replacement depth lines).

(** [raw[:-2]]: the backend's answer without its last two characters. *)
Definition strip_suffix (raw : str) : str := slice raw None (Some (-2)%Z).

Definition translate_multi_line_block (self : PoFileTranslator)
    (multiline_block : MultilineText) : M str :=
  msgid <- pure (match content multiline_block with
                 | Some c => Return c
                 | None => Raise AttributeError
                 end) ;;
  raw <- translate (translator self) msgid ;;
  let translated := strip_suffix raw in
  depth <- pure (match indentation_depth multiline_block with
                 | Some d => Return d
                 | None => Raise TypeError
                 end) ;;
  lines <- pure (emitted_lines translated depth) ;;
  pure (Re.sub 1 msgstr_value (msgstr_template depth lines)
          (block multiline_block)).

(** One block of the catalog, as the loop body of [translate_locale_path]
    treats it; [None]: the block is empty and skipped. *)
Definition translate_one (self : PoFileTranslator) (block : str) : M (option str) :=
  if str_eqb block [] then ret None
  else
    let msgid := Re.findall1 msgid_value block in
    if negb (len msgid =? 1)%Z then
      b <- process_first_block self block ;; ret (Some b)
    else
      let direct := b <- translate_block self block msgid ;; ret (Some b) in
      first <- pure (indexed (item msgid 0)) ;;
      if str_eqb first [] then
        match try_create_multline block with
        | Some multiline_text =>
            multiline_text' <- pure (get_content multiline_text) ;;
            b <- translate_multi_line_block self multiline_text' ;;
            ret (Some b)
        | None => direct
        end
      else direct.

(** [for block in file_content], appending to [result]. *)
Fixpoint translate_blocks (self : PoFileTranslator) (file_content : list str)
    (result : list str) : M (list str) :=
  match file_content with
  | [] => ret result
  | block :: rest =>
      b <- translate_one self block ;;
      translate_blocks self rest
        (match b with Some t => result ++ [t] | None => result end)
  end.

(** [locale_path.joinpath(lang_code, 'LC_MESSAGES', 'django.po')], the
    language code taken as one component. *)
Definition po_file_of (locale_path : path) (lang_code : str) : path :=
  locale_path ++ [lang_code; lit "LC_MESSAGES"; lit "django.po"].

Definition translate_locale_path (self : PoFileTranslator) (locale_path : path)
  : M unit :=
  let po_file := po_file_of locale_path (lang_code self) in
  present <- exists_ po_file ;;
  if negb present
  then pure (Raise (TranslatorError (missing_message (lang_code self)) None))
  else
    text <- read_text po_file ;;
    result <- translate_blocks self (split [NL; NL] text) [] ;;
    write_text po_file (join [NL; NL] result).

Fixpoint translate_paths (self : PoFileTranslator) (paths : list path) : M unit :=
  match paths with
  | [] => ret tt
  | locale_path :: rest =>
      _ <- translate_locale_path self locale_path ;;
      translate_paths self rest
  end.

Definition translate_codes (self : PoFileTranslator) : M unit :=
  translate_paths self (locale_paths self).

(* ================================================================== *)
(** ** Notions used in the statements *)

(** *** The [msgstr] field *)

(** The text that opens a [msgstr] value: [msgstr ] and a double quote. *)
Definition msgstr_open : str := Eval cbv in lit "msgstr " ++ [DQ].

(** [p] starts at some position of [pre] in the text [pre ++ rest]. *)
Fixpoint starts_within (p pre rest : str) : bool :=
  match pre with
  | [] => false
  | _ :: pre' => starts_with p (pre ++ rest) || starts_within p pre' rest
  end.

(** A character of a value: neither a double quote nor a line feed. *)
Definition plain (x : char) : Prop := x <> DQ /\ x <> NL.

(** *** The wrapping loop *)

(** The line of the first iteration, at [i = 0]. *)
Definition first_line (t : str) (d : Z) : str :=
  quoted (spaces d
          ++ slice t (Some 0%Z) (Some (Z.min (chunk_size + 0) (len t) - d)%Z)).

(** A line of a later iteration: a quoted window, or a quoted window without
    its last two characters. *)
Definition later_line (l : str) : Prop :=
  exists chunk, l = quoted chunk /\ (len chunk <= chunk_size)%Z.

(** A cursor that will not come back to 0. *)
Definition past_start (i : Z) : Prop := (0 < i \/ i mod chunk_size <> 0)%Z.

(** The depths for which the loop does not end. *)
Definition endless (d : Z) : Prop := (0 < d /\ d mod chunk_size = 0)%Z.

(** The number of characters between the quotes of a line. *)
Definition quoted_width (line : str) : Z := (len line - 2)%Z.

(** The bound of the specification: the first line within 80 minus the
    depth, every other line within 80. *)
Definition widths_as_claimed (d : Z) (lines : list str) : Prop :=
  match lines with
  | [] => True
  | first :: others =>
      (quoted_width first <= chunk_size - d)%Z
      /\ Forall (fun l => (quoted_width l <= chunk_size)%Z) others
  end.

(** *** Content extraction *)

(** The fragments of a line that carries text. *)
Definition fragments_of (line : str) : list str :=
  split [DQ; NL; DQ] (strip (slice line (Some 1%Z) (Some (-1)%Z))).

(** A fragment of nothing but quotes and white space is discarded. *)
Definition discarded (s : str) : bool := str_in (strip s) check_punctuation.

(** The discarded fragments of a parsed block, in the order in which
    [get_content] meets them. *)
Definition discarded_fragments (regex_block : list str) : list str :=
  flat_map (fun line =>
              if carries_text line then filter discarded (fragments_of line)
              else [])
           regex_block.

(** What [get_indentation_depth] returns on a fragment that is not empty:
    one more than its length, or, when it ends with a quote, one more than
    the length of what is left without its last two characters. *)
Definition depth_of (s : str) : Z :=
  match rev s with
  | [] => 1
  | c :: _ =>
      if is_quote c then (Z.max 0 (len s - 2) + 1)%Z else (len s + 1)%Z
  end.

(** The depth after the fragments [dropped] were discarded, from a depth
    that is set or not. *)
Definition depth_after (depth : option Z) (dropped : list str) : option Z :=
  if unset depth
  then match dropped with
       | [] => depth
       | s :: _ => Some (depth_of s)
       end
  else depth.

(** The first fragment of a list, if there is one, is not empty. *)
Definition first_nonempty (l : list str) : Prop :=
  match l with
  | s :: _ => s <> []
  | [] => True
  end.

(** *** Runs in the world *)

(** The exception a run ended with, if it did. *)
Definition raised {A} (o : outcome A) : option exn :=
  match o with
  | Raise e => Some e
  | _ => None
  end.

(** The exceptions that the program raises by itself, apart from the
    backend's: those of indexing, attributes, [range], files and [re.sub],
    and the [TranslatorError] of a missing catalog. *)
Definition local_exn (e : exn) : Prop :=
  match e with
  | IndexError | AttributeError | TypeError | OSError | TemplateError => True
  | TranslatorError message cause =>
      exists lang_code, message = missing_message lang_code /\ cause = None
  | BackendError _ => False
  end.

Definition only_local {A} (o : outcome A) : Prop :=
  forall e, o = Raise e -> local_exn e.

(** Every run of [m] stands in the relation [R]: the world before, the
    exception raised, the world after. *)
Definition respects (R : world -> option exn -> world -> Prop) {A} (m : M A)
  : Prop :=
  forall w o w', m w = (o, w') -> R w (raised o) w'.

(** The requests of a run, [new], after the [earlier] ones: each one was
    answered, except perhaps the last, whose failure is the exception [r]
    that the run ended with. *)
Fixpoint trace_ok (tr : Translator) (earlier new : list str) (r : option exn)
  : Prop :=
  match new with
  | [] => True
  | text :: later =>
      match tr earlier text with
      | Translated _ => trace_ok tr (earlier ++ [text]) later r
      | Failed e => later = [] /\ r = Some (BackendError e)
      end
  end.

Definition traced (tr : Translator) (w : world) (r : option exn) (w' : world) : Prop :=
  exists new, requests w' = requests w ++ new /\ trace_ok tr (requests w) new r.

(** The error of the constructor, known by its message. *)
Definition unsupported_language_error (e : exn) : Prop :=
  exists lang_code cause, e = TranslatorError (unsupported_message lang_code) cause.

Definition never_unsupported {A} (m : M A) : Prop :=
  forall w o w' e,
    m w = (o, w') -> o = Raise e -> ~ unsupported_language_error e.

(** The same, as a relation on runs. *)
Definition excludes_unsupported (w : world) (r : option exn) (w' : world) : Prop :=
  forall e, r = Some e -> ~ unsupported_language_error e.

(** *** Rewriting twice *)



(* ================================================================== *)
(** ** Fixtures: backends, blocks and a catalog *)

(** The identity as backend. *)
Definition echo : Translator := fun _ text => Translated text.

Definition no_files : path -> option str := fun _ => None.

Definition echo_translator : PoFileTranslator :=
  {| lang_code := lit "fr"; locale_paths := [[lit "locale"]];
     translator := echo |}.

(** A single-line entry that is translated already: [msgid Q Hello Q] and
    [msgstr Q Bonjour Q], Q the double quote. *)
Definition translated_block : str :=
  Eval cbv in
    join [NL] [ lit "msgid " ++ quoted (lit "Hello");
                lit "msgstr " ++ quoted (lit "Bonjour") ].

(** A multi-line entry as the message extractor writes it: the empty
    [msgid], the escaped-newline line, two indented lines of text, the
    closing indentation and an empty [msgstr]. *)
Definition multiline_block : str :=
  Eval cbv in
    join [NL] [ lit "msgid " ++ quoted [];
                quoted (lit "\n");
                quoted (lit "    Some text here\n");
                quoted (lit "    more text\n");
                quoted (lit "    ");
                lit "msgstr " ++ quoted [] ].

(** A parsed block whose content is a short text and the backend's suffix
    of two backslashes, at depth 4. *)
Definition echoed_multiline : MultilineText :=
  {| block := multiline_block; regex_block := [];
     indentation_depth := Some 4%Z;
     content := Some (lit "Line one and line two\\") |}.

(** A text of 156 characters and the two of the suffix, at depth 4. *)
Definition long_multiline : MultilineText :=
  {| block := multiline_block; regex_block := [];
     indentation_depth := Some 4%Z;
     content := Some (repeat 97%N 156 ++ [BS; BS]) |}.

(** A backend that answers its first request and fails on the next ones,
    and a catalog of two entries to translate. *)
Definition flaky : Translator :=
  fun earlier text =>
    match earlier with
    | [] => Translated text
    | _ :: _ => Failed (BackendFailure 429)
    end.

Definition flaky_translator : PoFileTranslator :=
  {| lang_code := lit "fr"; locale_paths := [[lit "locale"]];
     translator := flaky |}.

Definition two_entries : str :=
  Eval cbv in
    join [NL; NL]
      [ join [NL] [lit "msgid " ++ quoted (lit "Hello"); lit "msgstr " ++ quoted []];
        join [NL] [lit "msgid " ++ quoted (lit "World"); lit "msgstr " ++ quoted []] ].

Definition one_catalog : path -> option str :=
  write_file no_files (po_file_of [lit "locale"] (lit "fr")) two_entries.

(** A backend that knows French only. *)
Definition french_only (lang_code : str) : construct :=
  if str_eqb lang_code (lit "fr") then Built echo
  else Refused LanguageNotSupportedException.




(* ================================================================== *)
(** ** Notions used in the further properties *)

(** The text has no backslash. *)
Definition backslash_free (s : str) : Prop := Forall (fun c => c <> BS) s.

(** A parsed block whose lines are indented by 80 spaces, and a short
    answer of the backend. *)
Definition deep_multiline : MultilineText :=
  {| block := multiline_block; regex_block := [];
     indentation_depth := Some 80%Z;
     content := Some (lit "abc") |}.

(** The texts of the lines with the marker put after the last one. *)
Fixpoint with_marker (texts : list str) : list str :=
  match texts with
  | [] => []
  | [x] => [x ++ marker]
  | x :: rest => x :: with_marker rest
  end.

(** A parsed block with a short text (17 characters and the suffix) at
    depth 4. *)
Definition short_multiline : MultilineText :=
  {| block := multiline_block; regex_block := [];
     indentation_depth := Some 4%Z;
     content := Some (lit "Line one and line\\") |}.

(** The first fragment of a list is the empty text. *)
Definition first_empty (l : list str) : bool :=
  match l with
  | [] :: _ => true
  | _ => false
  end.

(** A multi-line entry whose first continuation line holds indentation
    only, as in the lines that the rewriter itself writes. *)
Definition indented_first_block : str :=
  Eval cbv in
    join [NL] [ lit "msgid " ++ quoted [];
                quoted (lit "\n");
                quoted (lit "    ");
                quoted (lit "    Some text here\n");
                quoted (lit "    ");
                lit "msgstr " ++ quoted [] ].

(** The character that a token of a template stands for, when the token is
    a plain character or an escaped backslash. *)
Definition token_char (t : Re.token) : char :=
  match t with
  | Re.TChar c => c
  | Re.TEsc c => c
  end.

Definition simple_token (t : Re.token) : Prop :=
  match t with
  | Re.TChar _ => True
  | Re.TEsc c => c = BS
  end.

(** [s] is a template in which every backslash is doubled, and [e] is the
    text it stands for: [s] with each doubled backslash made single. *)
Definition expands (s e : str) : Prop :=
  exists toks,
    Re.tokenize s = Some toks
    /\ Forall simple_token toks
    /\ map token_char toks = e.

(** The texts of the lines with an escaped newline (a backslash and an n)
    put after the last one. *)
Fixpoint with_escaped_newline (texts : list str) : list str :=
  match texts with
  | [] => []
  | [x] => [x ++ [BS; 110%N]]
  | x :: rest => x :: with_escaped_newline rest
  end.

(** The text written in the place of a [msgstr] field for wrapped [texts]:
    an empty string, the escaped newline, the indentation, the lines with
    the texts and the indentation again. *)
Definition written_field (depth : Z) (texts : list str) : str :=
  lit "msgstr "
  ++ join [NL]
       ([ [DQ; DQ]; quoted [BS; 110%N]; quoted (spaces depth) ]
        ++ map quoted (with_escaped_newline texts)
        ++ [ quoted (spaces depth) ]).

(** [p] starts nowhere in [s]. *)
Definition absent (p s : str) : bool := negb (starts_within p s []).


(** A backend whose answer holds a backslash before the letter d. *)
Definition path_answer : str := lit "See C:\docs".

Definition path_translator : PoFileTranslator :=
  {| lang_code := lit "fr"; locale_paths := [];
     translator := fun _ _ => Translated path_answer |}.

(** The lines of the sample block before its [msgstr] field. *)
Definition multiline_head : str :=
  Eval cbv in
    join [NL] [ lit "msgid " ++ quoted [];
                quoted (lit "\n");
                quoted (lit "    Some text here\n");
                quoted (lit "    more text\n");
                quoted (lit "    ") ] ++ [NL].

(** The catalog files of the translator: one for each locale path. *)
Definition catalogs (self : PoFileTranslator) : list path :=
  map (fun locale_path => po_file_of locale_path (lang_code self))
    (locale_paths self).

(** Every run of [m] sends at most [n] requests to the backend, and takes
    none back. *)
Definition sends_at_most (n : nat) {A} (m : M A) : Prop :=
  forall w o w',
    m w = (o, w') ->
    exists new, requests w' = requests w ++ new /\ (length new <= n)%nat.

(** The blocks that the loop of [translate_locale_path] does not skip. *)
Definition nonempty_blocks (text : str) : list str :=
  filter (fun block => negb (str_eqb block [])) (split [NL; NL] text).

(** A block with one [msgid] value, which is not empty, and a first
    [msgstr] value that is not empty: a single-line entry that has its
    translation. *)
Definition settled (block : str) : bool :=
  match Re.findall1 msgid_value block with
  | [m] => negb (str_eqb m []) && already_translated (Re.findall1 msgstr_value block)
  | _ => false
  end.



(** A catalog with a translator's note that stands alone between blank
    lines, after an entry that has its translation. *)
Definition catalog_with_note : str :=
  Eval cbv in
    join [NL; NL]
      [ join [NL] [lit "msgid " ++ quoted (lit "Hello");
                   lit "msgstr " ++ quoted (lit "Bonjour")];
        lit "# checked up to here";
        join [NL] [lit "msgid " ++ quoted (lit "World");
                   lit "msgstr " ++ quoted []] ].

(** An entry with plural forms, not translated yet. *)
Definition plural_block : str :=
  Eval cbv in
    join [NL] [ lit "msgid " ++ quoted (lit "One file");
                lit "msgid_plural " ++ quoted (lit "Many files");
                lit "msgstr[0] " ++ quoted [];
                lit "msgstr[1] " ++ quoted [] ].

(* ================================================================== *)
(** ** Properties *)

(** *** The single-line translator *)

(** A literal text matches where the text starts with it. *)
Lemma rmatch_text p : forall s c k,
  Re.rmatch (Re.text p) s c k
  = if starts_with p s then k (skipn (length p) s) c else None.
Proof.
  induction p as [|a p IH]; intros s c k; cbn [Re.text Re.rmatch starts_with].
  - reflexivity.
  - destruct s as [|x s]; [reflexivity|].
    rewrite N.eqb_sym. destruct (N.eqb a x); cbn [andb]; [apply IH|reflexivity].
Qed.

(** The lazy [.*?] stops at the first place where what follows matches. *)
Lemma rmatch_lazy_dot v : forall rest c k m,
  Forall (fun x => x <> NL) v ->
  (forall v1 v2, v = v1 ++ v2 -> v2 <> [] -> k (v2 ++ rest) c = None) ->
  k rest c = Some m ->
  Re.rmatch (Re.lazy_star Re.Dot) (v ++ rest) c k = Some m.
Proof.
  intros rest c k m Hv Hk Hm. unfold Re.lazy_star. cbn [Re.rmatch].
  set (L := fix loop (fuel count : nat) (last : option nat) (s : str) (c : Re.caps)
              {struct fuel} : option (str * Re.caps) := _).
  assert (forall v' fuel count last,
            (length v' < fuel)%nat ->
            (exists v1, v = v1 ++ v') ->
            Re.moved last (v' ++ rest) = true ->
            L fuel count last (v' ++ rest) c = Some m) as HL.
  { induction v' as [|x v' IH]; intros fuel count last Hfuel [v1 Hv1] Hmoved;
      (destruct fuel as [|fuel]; [cbn in Hfuel; lia|]); cbn [L Nat.ltb Nat.leb app].
    - fold L. cbn [app] in *. now rewrite Hm.
    - fold L. pose proof (Hk v1 (x :: v') Hv1 ltac:(discriminate)) as Hn.
      cbn [app] in Hn, Hmoved. rewrite Hn, Hmoved.
      assert (x <> NL) as Hx.
      { rewrite Hv1 in Hv. apply Forall_app in Hv. destruct Hv as [_ Hv].
        now inversion Hv. }
      apply N.eqb_neq in Hx. rewrite Hx.
      apply IH.
      + cbn in Hfuel. lia.
      + exists (v1 ++ [x]). now rewrite <- app_assoc.
      + cbn [Re.moved length]. apply negb_true_iff, Nat.eqb_neq. lia. }
  apply HL; [rewrite length_app; lia|now exists []|reflexivity].
Qed.

(** A search passes over the positions where the pattern does not match. *)
Lemma search_from_skip r : forall pre passed rest,
  (forall a b, pre = a ++ b -> b <> [] -> Re.match_at r (b ++ rest) = None) ->
  Re.search_from r passed (pre ++ rest) = Re.search_from r (rev pre ++ passed) rest.
Proof.
  induction pre as [|x pre IH]; intros passed rest H; [reflexivity|].
  cbn [app Re.search_from].
  pose proof (H [] (x :: pre) eq_refl ltac:(discriminate)) as Hx.
  cbn [app] in Hx. rewrite Hx. rewrite IH.
  - cbn [rev]. now rewrite <- app_assoc.
  - intros a b -> Hb. apply (H (x :: a) b); [reflexivity|assumption].
Qed.

Lemma search_from_found r passed s s' c :
  Re.match_at r s = Some (s', c) ->
  Re.search_from r passed s = Some (Re.Found (rev passed) (Re.consumed s s') c s').
Proof.
  intros H. destruct s; cbn [Re.search_from]; now rewrite H.
Qed.

Lemma starts_within_false p : forall pre rest,
  starts_within p pre rest = false ->
  forall a b, pre = a ++ b -> b <> [] -> starts_with p (b ++ rest) = false.
Proof.
  induction pre as [|x pre IH]; intros rest H a b E Hb.
  - destruct a; destruct b; try discriminate. congruence.
  - cbn [starts_within] in H. apply orb_false_iff in H. destruct H as [H1 H2].
    destruct a as [|y a]; cbn [app] in E.
    + subst b. exact H1.
    + injection E as -> E. now apply (IH rest H2 a b).
Qed.

Lemma match_at_msgstr_value_needs_open s :
  starts_with msgstr_open s = false -> Re.match_at msgstr_value s = None.
Proof.
  intros H. unfold Re.match_at, msgstr_value. cbn [Re.seq Re.rmatch].
  change (lit "msgstr " ++ [DQ]) with msgstr_open.
  now rewrite rmatch_text, H.
Qed.

Lemma firstn_length_app {A} (l r : list A) : firstn (length l) (l ++ r) = l.
Proof.
  rewrite firstn_app, firstn_all, Nat.sub_diag. cbn. apply app_nil_r.
Qed.

Lemma consumed_app (v rest : str) : Re.consumed (v ++ rest) rest = v.
Proof.
  unfold Re.consumed. rewrite length_app.
  replace (length v + length rest - length rest)%nat with (length v) by lia.
  apply firstn_length_app.
Qed.

(** At an opening [msgstr ] and quote, the pattern of line 23 matches up to
    the first double quote and captures the value before it. *)
Lemma match_at_msgstr_value value post :
  Forall plain value ->
  Re.match_at msgstr_value (msgstr_open ++ value ++ DQ :: post)
  = Some (post, [(1%nat, value)]).
Proof.
  intros Hv. unfold Re.match_at, msgstr_value. cbn [Re.seq Re.rmatch].
  change (lit "msgstr " ++ [DQ]) with msgstr_open.
  rewrite rmatch_text.
  assert (starts_with msgstr_open (msgstr_open ++ value ++ DQ :: post) = true) as ->
    by reflexivity.
  change (skipn (length msgstr_open) (msgstr_open ++ value ++ DQ :: post))
    with (value ++ DQ :: post).
  apply rmatch_lazy_dot.
  - eapply Forall_impl; [|exact Hv]. now intros x [_ H].
  - intros v1 v2 -> Hv2. destruct v2 as [|y v2]; [congruence|].
    apply Forall_app in Hv. destruct Hv as [_ Hv]. inversion Hv as [|? ? [Hy _] _].
    cbn [app]. apply N.eqb_neq in Hy. now rewrite Hy.
  - cbn [Re.rmatch]. rewrite N.eqb_refl. now rewrite consumed_app.
Qed.

(** The first value that [findall] reports for a block is the value of the
    first [msgstr] field of the block. *)
Lemma findall1_msgstr_value_first pre value post :
  starts_within msgstr_open pre (msgstr_open ++ value ++ DQ :: post) = false ->
  Forall plain value ->
  exists others,
    Re.findall1 msgstr_value (pre ++ msgstr_open ++ value ++ DQ :: post)
    = value :: others.
Proof.
  intros Hpre Hv. unfold Re.findall1, Re.matches.
  cbn [Re.scan]. unfold Re.search.
  rewrite search_from_skip.
  - rewrite (@search_from_found _ _ _ _ _ (match_at_msgstr_value post Hv)).
    cbn [Re.whole].
    replace (msgstr_open ++ value ++ DQ :: post)
      with ((msgstr_open ++ value ++ [DQ]) ++ post)
      by (now rewrite <- !app_assoc).
    rewrite consumed_app. cbn [app msgstr_open Re.after].
    destruct (Re.scan _ msgstr_value post) as [fs rest].
    cbn [fst map Re.groups]. eexists. reflexivity.
  - intros a b E Hb. apply match_at_msgstr_value_needs_open.
    now apply (@starts_within_false _ _ _ Hpre a b).
Qed.

(** C7. [translate_block] returns the block as it is and sends nothing to
    the backend (the world, with its list of requests, is unchanged)
    - when the first [msgstr] value that line 23 finds in the block is not
      empty, and so
    - when the first place of the block where [msgstr ] and a double quote
      stand is followed by a value that is not empty, free of double quotes
      and line feeds, and by the closing double quote. *)
Theorem translate_block_skips_translated :
  forall self block msgid w,
    (forall value others,
        Re.findall1 msgstr_value block = value :: others ->
        value <> [] ->
        translate_block self block msgid w = (Return block, w))
    /\ (forall pre value post,
          block = pre ++ msgstr_open ++ value ++ DQ :: post ->
          starts_within msgstr_open pre (msgstr_open ++ value ++ DQ :: post) = false ->
          Forall plain value ->
          value <> [] ->
          translate_block self block msgid w = (Return block, w)).
Proof.
  intros self block msgid w.
  assert (forall value others,
             Re.findall1 msgstr_value block = value :: others ->
             value <> [] ->
             translate_block self block msgid w = (Return block, w)) as Hguard.
  { intros value others Hfind Hvalue.
    unfold translate_block. rewrite Hfind.
    destruct value as [|c value']; [congruence|]. reflexivity. }
  split; [exact Hguard|].
  intros pre value post -> Hpre Hplain Hvalue.
  destruct (findall1_msgstr_value_first pre post Hpre Hplain) as [others Hfind].
  exact (Hguard value others Hfind Hvalue).
Qed.

Lemma translate_block_skips_translated_witness :
  translate_block echo_translator translated_block [lit "Hello"]
    (World [] no_files) = (Return translated_block, World [] no_files).
Proof.
  apply (proj2 (@translate_block_skips_translated echo_translator translated_block
                  [lit "Hello"] (World [] no_files))
           (lit "msgid " ++ quoted (lit "Hello") ++ [NL]) (lit "Bonjour") []).
  - reflexivity.
  - vm_compute. reflexivity.
  - repeat constructor; discriminate.
  - discriminate.
Defined.

(** *** Slices and quoted lines *)

Lemma len_nonneg {A} (l : list A) : (0 <= len l)%Z.
Proof. unfold len. lia. Qed.

Lemma len_app {A} (a b : list A) : len (a ++ b) = (len a + len b)%Z.
Proof. unfold len. rewrite length_app. lia. Qed.

Lemma len_quoted (s : str) : len (quoted s) = (len s + 2)%Z.
Proof. unfold quoted, len. cbn [length]. rewrite length_app. cbn. lia. Qed.

Lemma len_spaces (d : Z) : len (spaces d) = Z.max 0 d.
Proof. unfold spaces, len. rewrite repeat_length. lia. Qed.

(** A slice is no longer than the distance between its clipped bounds. *)
Lemma len_slice_le {A} (s : list A) (i j : Z) :
  (len (slice s (Some i) (Some j))
   <= Z.max 0 (clip (len s) j - clip (len s) i))%Z.
Proof.
  unfold slice, len. rewrite length_firstn.
  set (hi := clip _ j). set (lo := clip _ i). lia.
Qed.

(** The window [translated[i:j]] of the loop holds at most 80 characters,
    also when the cursor is negative. *)
Lemma window_le_chunk_size (t : str) (i : Z) :
  (len (slice t (Some i) (Some (Z.min (chunk_size + i) (len t)))) <= chunk_size)%Z.
Proof.
  etransitivity; [apply len_slice_le|].
  pose proof (len_nonneg t). unfold clip, chunk_size.
  destruct (Z.ltb_spec (Z.min (80 + i) (len t)) 0);
    destruct (Z.ltb_spec i 0); lia.
Qed.

(** Dropping the last two characters does not lengthen a text. *)
Lemma len_drop_last_le {A} (s : list A) (k : Z) :
  (len (slice s None (Some k)) <= len s)%Z.
Proof.
  unfold slice, len. rewrite length_firstn, length_skipn. lia.
Qed.

(** [s[:k]] keeps the characters before the clipped bound. *)
Lemma slice_to {A} (s : list A) (k : Z) :
  slice s None (Some k) = firstn (Z.to_nat (clip (len s) k)) s.
Proof.
  unfold slice. rewrite Z.sub_0_r. reflexivity.
Qed.

(** [(l ++ [a])[:-1]] is [l]. *)
Lemma slice_drop_last {A} (l : list A) (a : A) :
  slice (l ++ [a]) None (Some (-1)%Z) = l.
Proof.
  rewrite slice_to. unfold clip, len. rewrite length_app. cbn [length Z.ltb Z.compare].
  replace (Z.to_nat (Z.max (-1 + Z.of_nat (length l + 1)) 0)) with (length l) by lia.
  apply firstn_length_app.
Qed.

(** [(base ++ [a; b])[:-2]] is [base]. *)
Lemma slice_drop_last_two {A} (base : list A) (a b : A) :
  slice (base ++ [a; b]) None (Some (-2)%Z) = base.
Proof.
  rewrite slice_to. unfold clip, len. rewrite length_app. cbn [length Z.ltb Z.compare].
  replace (Z.to_nat (Z.max (-2 + Z.of_nat (length base + 2)) 0))
    with (length base) by lia.
  apply firstn_length_app.
Qed.

(** A text of at most two characters has nothing left before its last two. *)
Lemma slice_drop_last_two_short {A} (s : list A) :
  (length s <= 2)%nat -> slice s None (Some (-2)%Z) = [].
Proof.
  intros H. rewrite slice_to. unfold clip, len. cbn [Z.ltb Z.compare].
  replace (Z.to_nat (Z.max (-2 + Z.of_nat (length s)) 0)) with 0%nat by lia.
  reflexivity.
Qed.

Lemma slice_drop_last_two_long {A} (s : list A) :
  (3 <= length s)%nat -> slice s None (Some (-2)%Z) <> [].
Proof.
  intros H E. apply (f_equal (@length A)) in E. revert E.
  rewrite slice_to. unfold clip, len. cbn [Z.ltb Z.compare length].
  rewrite length_firstn. lia.
Qed.

(** *** The wrapping loop *)

Lemma wrap_loop_done fuel t d i lines :
  (len t <= i)%Z -> wrap_loop fuel t d i lines = Some lines.
Proof.
  intros H. destruct fuel; cbn [wrap_loop];
    destruct (Z.ltb_spec i (len t)); try lia; reflexivity.
Qed.

Lemma wrap_loop_out_of_fuel t d i lines :
  (i < len t)%Z -> wrap_loop 0 t d i lines = None.
Proof.
  intros H. cbn [wrap_loop]. destruct (Z.ltb_spec i (len t)); [reflexivity|lia].
Qed.

Lemma wrap_loop_first fuel t d lines :
  (0 < len t)%Z ->
  wrap_loop (S fuel) t d 0 lines
  = wrap_loop fuel t d (0 + (chunk_size - d)) (lines ++ [first_line t d]).
Proof.
  intros H. cbn [wrap_loop]. destruct (Z.ltb_spec 0 (len t)); [|lia].
  reflexivity.
Qed.

Lemma wrap_loop_later_step fuel t d i lines :
  (i < len t)%Z -> i <> 0%Z ->
  exists added,
    wrap_loop (S fuel) t d i lines
    = wrap_loop fuel t d (i + chunk_size) (lines ++ added)
    /\ Forall later_line added.
Proof.
  intros Hlt Hnz. cbn [wrap_loop].
  destruct (Z.ltb_spec i (len t)); [|lia].
  destruct (Z.eqb_spec i 0); [contradiction|].
  pose proof (window_le_chunk_size t i) as Hw.
  set (window := slice t (Some i) (Some (Z.min (chunk_size + i) (len t)))) in *.
  destruct (str_eqb window []).
  - exists []. rewrite app_nil_r. split; [reflexivity|constructor].
  - destruct (str_eqb (slice window (Some (-2)%Z) None) (lit "\n")).
    + eexists [_]. split; [reflexivity|]. repeat constructor.
      eexists. split; [reflexivity|].
      pose proof (len_drop_last_le window (-2)). lia.
    + eexists [_]. split; [reflexivity|]. repeat constructor.
      eexists. split; [reflexivity|]. exact Hw.
Qed.

Lemma past_start_next i : past_start i -> past_start (i + chunk_size).
Proof.
  unfold past_start, chunk_size. intros [H|H]; [left; lia|right].
  replace (i + 80)%Z with (i + 1 * 80)%Z by lia. now rewrite Z_mod_plus_full.
Qed.

Lemma past_start_nonzero i : past_start i -> i <> 0%Z.
Proof.
  unfold past_start, chunk_size. intros [H|H] E; subst; [lia|]. now apply H.
Qed.

(** After the first line, every line that is added is a later line. *)
Lemma wrap_loop_later fuel : forall t d i lines out,
  past_start i ->
  wrap_loop fuel t d i lines = Some out ->
  exists more, out = lines ++ more /\ Forall later_line more.
Proof.
  induction fuel as [|fuel IH]; intros t d i lines out Hi Hrun.
  - destruct (Z.lt_ge_cases i (len t)) as [Hlt|Hge].
    + rewrite wrap_loop_out_of_fuel in Hrun by assumption. discriminate.
    + rewrite wrap_loop_done in Hrun by assumption. injection Hrun as <-.
      exists []. rewrite app_nil_r. split; [reflexivity|constructor].
  - destruct (Z.lt_ge_cases i (len t)) as [Hlt|Hge].
    + destruct (@wrap_loop_later_step fuel t d i lines Hlt (past_start_nonzero Hi))
        as (added & Hstep & Hadded).
      rewrite Hstep in Hrun.
      destruct (IH _ _ _ _ _ (past_start_next Hi) Hrun) as (more & -> & Hmore).
      exists (added ++ more). rewrite app_assoc. split; [reflexivity|].
      apply Forall_app. split; assumption.
    + rewrite wrap_loop_done in Hrun by assumption. injection Hrun as <-.
      exists []. rewrite app_nil_r. split; [reflexivity|constructor].
Qed.

(** With an indentation depth that is a positive multiple of 80 the cursor
    comes back to 0 again and again: no number of iterations ends the loop. *)
Lemma wrap_loop_stuck fuel : forall t d i lines,
  (0 < d)%Z -> (d mod chunk_size = 0)%Z -> (0 < len t)%Z ->
  (i <= 0)%Z -> (i mod chunk_size = 0)%Z ->
  wrap_loop fuel t d i lines = None.
Proof.
  unfold chunk_size.
  induction fuel as [|fuel IH]; intros t d i lines Hd Hmod Ht Hi Himod.
  - apply wrap_loop_out_of_fuel. lia.
  - destruct (Z.eq_dec i 0) as [->|Hnz].
    + rewrite wrap_loop_first by assumption. apply IH; try assumption;
        unfold chunk_size; Z.div_mod_to_equations; lia.
    + destruct (@wrap_loop_later_step fuel t d i lines ltac:(lia) Hnz)
        as (added & -> & _).
      apply IH; try assumption; unfold chunk_size; Z.div_mod_to_equations; lia.
Qed.

(** Past the start, the loop ends within [len t - i] iterations. *)
Lemma wrap_loop_ends fuel : forall t d i lines,
  past_start i -> (Z.to_nat (len t - i) <= fuel)%nat ->
  wrap_loop fuel t d i lines <> None.
Proof.
  induction fuel as [|fuel IH]; intros t d i lines Hi Hfuel.
  - rewrite wrap_loop_done by lia. discriminate.
  - destruct (Z.lt_ge_cases i (len t)) as [Hlt|Hge].
    + destruct (@wrap_loop_later_step fuel t d i lines Hlt (past_start_nonzero Hi))
        as (added & -> & _).
      apply IH; [now apply past_start_next|unfold chunk_size; lia].
    + rewrite wrap_loop_done by assumption. discriminate.
Qed.

Lemma past_start_after_first d : ~ endless d -> past_start (0 + (chunk_size - d)).
Proof.
  unfold endless, past_start, chunk_size. intros H.
  destruct (Z_le_gt_dec d 0); [left; lia|].
  destruct (Z.eq_dec (d mod 80) 0); [exfalso; apply H; lia|].
  right. Z.div_mod_to_equations. lia.
Qed.

(** [wrap] diverges exactly on a text that is not empty with an endless
    depth; otherwise it returns. *)
Theorem wrap_diverges t d :
  t <> [] -> endless d -> forall fuel, wrap_loop fuel t d 0 [] = None.
Proof.
  intros Ht [Hd Hmod] fuel. apply wrap_loop_stuck; try assumption; try lia.
  - destruct t; [congruence|]. unfold len. cbn. lia.
  - reflexivity.
Qed.

Theorem wrap_terminates t d :
  ~ endless d -> exists lines, wrap t d = Return lines.
Proof.
  intros Hd. unfold wrap.
  destruct (wrap_loop (wrap_fuel t d) t d 0 []) as [lines|] eqn:Hrun;
    [now exists lines|exfalso].
  revert Hrun. unfold wrap_fuel.
  pose proof (len_nonneg t) as Hn.
  destruct (Z.eq_dec (len t) 0) as [Hz|Hz].
  - rewrite wrap_loop_done by lia. discriminate.
  - replace (Z.to_nat (len t + Z.abs d + 2))
      with (S (Z.to_nat (len t + Z.abs d + 1))) by lia.
    rewrite wrap_loop_first by lia.
    apply wrap_loop_ends; [now apply past_start_after_first|].
    unfold chunk_size. lia.
Qed.

(** The lines of a finished loop: nothing for the empty text, else the first
    line and then later lines. *)
Theorem wrap_shape t d lines :
  wrap t d = Return lines ->
  (t = [] /\ lines = [])
  \/ (t <> [] /\ exists more, lines = first_line t d :: more /\ Forall later_line more).
Proof.
  unfold wrap. destruct (wrap_loop _ t d 0 []) as [out|] eqn:Hrun; [|discriminate].
  intros E. injection E as ->.
  destruct t as [|c t'].
  - left. split; [reflexivity|].
    rewrite wrap_loop_done in Hrun by (unfold len; cbn; lia). congruence.
  - right. split; [discriminate|].
    set (t := c :: t') in *.
    assert (0 < len t)%Z as Hpos by (unfold len, t; cbn [length]; lia).
    unfold wrap_fuel in Hrun.
    replace (Z.to_nat (len t + Z.abs d + 2))
      with (S (Z.to_nat (len t + Z.abs d + 1))) in Hrun by lia.
    rewrite wrap_loop_first in Hrun by assumption.
    destruct (Z_le_gt_dec (0 + (chunk_size - d)) 0) as [Hle|Hgt].
    + destruct (Z.eq_dec ((0 + (chunk_size - d)) mod chunk_size) 0) as [Hm|Hm].
      * rewrite wrap_loop_stuck in Hrun; try assumption; try discriminate;
          revert Hle Hm; unfold chunk_size; intros;
          try (Z.div_mod_to_equations; lia).
      * apply wrap_loop_later in Hrun; [|now right].
        destruct Hrun as (more & -> & Hmore). now exists more.
    + apply wrap_loop_later in Hrun; [|left; lia].
      destruct Hrun as (more & -> & Hmore). now exists more.
Qed.

(** *** Closing the last line *)

Lemma item_last {A} (front : list A) (a : A) : item (front ++ [a]) (-1) = Some a.
Proof.
  unfold item, len. rewrite length_app. cbn [length Z.ltb Z.compare].
  destruct (Z.ltb_spec (-1 + Z.of_nat (length front + 1)) 0); [lia|].
  destruct (Z.leb_spec (Z.of_nat (length front + 1))
                       (-1 + Z.of_nat (length front + 1))); [lia|].
  cbn [orb].
  replace (Z.to_nat (-1 + Z.of_nat (length front + 1))) with (length front) by lia.
  rewrite nth_error_app2, Nat.sub_diag by lia. reflexivity.
Qed.

Lemma set_nth_last {A} (front : list A) (a v : A) :
  set_nth (front ++ [a]) (length front) v = front ++ [v].
Proof.
  induction front as [|x front IH]; cbn; [reflexivity|]. now rewrite IH.
Qed.

Lemma set_item_last {A} (front : list A) (a v : A) :
  set_item (front ++ [a]) (-1) v = Some (front ++ [v]).
Proof.
  unfold set_item, len. rewrite length_app. cbn [length Z.ltb Z.compare].
  destruct (Z.ltb_spec (-1 + Z.of_nat (length front + 1)) 0); [lia|].
  destruct (Z.leb_spec (Z.of_nat (length front + 1))
                       (-1 + Z.of_nat (length front + 1))); [lia|].
  cbn [orb].
  replace (Z.to_nat (-1 + Z.of_nat (length front + 1))) with (length front) by lia.
  now rewrite set_nth_last.
Qed.

Lemma close_last_line_nil : close_last_line [] = Raise IndexError.
Proof. reflexivity. Qed.

Lemma close_last_line_quoted front x :
  close_last_line (front ++ [quoted x]) = Return (front ++ [quoted (x ++ marker)]).
Proof.
  unfold close_last_line. rewrite item_last. cbn [indexed obind].
  rewrite set_item_last. cbn [indexed]. do 3 f_equal.
  unfold quoted. change (DQ :: x ++ [DQ]) with ((DQ :: x) ++ [DQ]).
  rewrite slice_drop_last. cbn. now rewrite <- app_assoc.
Qed.

(** Every line of a finished loop is a quoted text. *)
Lemma wrap_lines_quoted t d lines :
  wrap t d = Return lines -> Forall (fun l => exists x, l = quoted x) lines.
Proof.
  intros H. destruct (wrap_shape _ _ H) as [[_ ->]|(_ & more & -> & Hmore)].
  - constructor.
  - constructor; [eexists; reflexivity|].
    eapply Forall_impl; [|exact Hmore]. intros l (chunk & -> & _). now eexists.
Qed.

(** The emitted lines are the lines of the loop, the last one with the
    marker before its closing quote. *)
Theorem emitted_lines_inv t d lines :
  emitted_lines t d = Return lines ->
  exists front x,
    wrap t d = Return (front ++ [quoted x])
    /\ lines = front ++ [quoted (x ++ marker)].
Proof.
  unfold emitted_lines. destruct (wrap t d) as [out| |] eqn:Hwrap;
    cbn [obind]; try discriminate.
  intros Hclose.
  destruct out as [|l out'] using rev_ind; [discriminate|]. clear IHout'.
  pose proof (wrap_lines_quoted _ _ Hwrap) as Hq.
  apply Forall_app in Hq. destruct Hq as [_ Hq]. inversion Hq as [|? ? [x ->] _].
  rewrite close_last_line_quoted in Hclose. injection Hclose as <-.
  now exists out', x.
Qed.

(** *** The multi-line rewriter *)

(** [translate_multi_line_block] on an object with its attributes set, when
    the backend answers. *)
Lemma translate_multi_line_block_answered self mb w msgid d raw :
  content mb = Some msgid ->
  indentation_depth mb = Some d ->
  translator self (requests w) msgid = Translated raw ->
  translate_multi_line_block self mb w
  = (lines <~ emitted_lines (strip_suffix raw) d ;;
     Re.sub 1 msgstr_value (msgstr_template d lines) (block mb),
     World (requests w ++ [msgid]) (files w)).
Proof.
  intros Hc Hd Hr. unfold translate_multi_line_block, bind, pure, translate.
  rewrite Hc, Hd, Hr. cbn [obind].
  destruct (emitted_lines (slice raw None (Some (-2)%Z)) d) eqn:E;
    unfold strip_suffix; rewrite E; reflexivity.
Qed.

(** A call that returns had its attributes set and an answer from the
    backend. *)
Lemma translate_multi_line_block_returned self mb w out w' :
  translate_multi_line_block self mb w = (Return out, w') ->
  exists msgid d raw lines,
    content mb = Some msgid
    /\ indentation_depth mb = Some d
    /\ translator self (requests w) msgid = Translated raw
    /\ emitted_lines (strip_suffix raw) d = Return lines
    /\ Re.sub 1 msgstr_value (msgstr_template d lines) (block mb) = Return out.
Proof.
  intros H.
  destruct (content mb) as [msgid|] eqn:Hc;
    [|unfold translate_multi_line_block, bind, pure in H; rewrite Hc in H;
      discriminate].
  destruct (translator self (requests w) msgid) as [raw|e] eqn:Hr;
    [|unfold translate_multi_line_block, bind, pure, translate in H;
      rewrite Hc, Hr in H; discriminate].
  destruct (indentation_depth mb) as [d|] eqn:Hd;
    [|unfold translate_multi_line_block, bind, pure, translate in H;
      rewrite Hc, Hr, Hd in H; discriminate].
  rewrite (translate_multi_line_block_answered _ _ _ Hc Hd Hr) in H.
  destruct (emitted_lines (strip_suffix raw) d) as [lines| |] eqn:He;
    cbn [obind] in H; try discriminate.
  exists msgid, d, raw, lines. repeat split; try assumption. congruence.
Qed.



(** C10. Let the backend answer [raw] to a multi-line block.  If [raw] has at
    most two characters, nothing is left after the suffix is dropped, no line
    is emitted and [translate_multi_line_block] raises [IndexError] at
    [lines[-1]] instead of returning.  If [raw] has three characters or more,
    the loop emits its first line in its first iteration, so closing the last
    line never raises; it returns lines, the first one among them, unless the
    depth is a positive multiple of 80, where the loop does not end. *)
Theorem short_answer_fails_longer_answer_emits :
  forall self mb w msgid d raw,
    content mb = Some msgid ->
    indentation_depth mb = Some d ->
    translator self (requests w) msgid = Translated raw ->
    ((length raw <= 2)%nat ->
       wrap (strip_suffix raw) d = Return []
       /\ fst (translate_multi_line_block self mb w) = Raise IndexError)
    /\ ((3 <= length raw)%nat ->
          (forall fuel lines,
              wrap_loop (S fuel) (strip_suffix raw) d 0 lines
              = wrap_loop fuel (strip_suffix raw) d (0 + (chunk_size - d))
                  (lines ++ [first_line (strip_suffix raw) d]))
          /\ (forall e, emitted_lines (strip_suffix raw) d <> Raise e)
          /\ (~ endless d ->
                exists more closed,
                  wrap (strip_suffix raw) d
                  = Return (first_line (strip_suffix raw) d :: more)
                  /\ close_last_line (first_line (strip_suffix raw) d :: more)
                     = Return closed)
          /\ (endless d ->
                forall fuel, wrap_loop fuel (strip_suffix raw) d 0 [] = None)).
Proof.
  intros self mb w msgid d raw Hc Hd Hr. split.
  - intros Hshort.
    rewrite (translate_multi_line_block_answered _ _ _ Hc Hd Hr).
    unfold strip_suffix. rewrite (slice_drop_last_two_short _ Hshort).
    assert (wrap [] d = Return []) as Hw
      by (unfold wrap; now rewrite wrap_loop_done by (unfold len; cbn; lia)).
    unfold emitted_lines. rewrite Hw. split; reflexivity.
  - intros Hlong.
    pose proof (slice_drop_last_two_long _ Hlong) as Hne.
    fold (strip_suffix raw) in Hne. set (t := strip_suffix raw) in *.
    assert (0 < len t)%Z as Hpos.
    { destruct t; [congruence|]. unfold len. cbn [length]. lia. }
    split; [intros; now apply wrap_loop_first|].
    assert (forall lines, wrap t d = Return lines ->
              exists more closed, lines = first_line t d :: more
                                  /\ close_last_line lines = Return closed) as Hret.
    { intros lines Hw.
      destruct (wrap_shape _ _ Hw) as [[E _]|(_ & more & -> & _)]; [congruence|].
      exists more.
      pose proof (wrap_lines_quoted _ _ Hw) as Hq.
      destruct (@exists_last _ (first_line t d :: more) ltac:(discriminate))
        as (front & l & E).
      rewrite E in Hq |- *. apply Forall_app in Hq. destruct Hq as [_ Hq].
      inversion Hq as [|? ? [x ->] _]. rewrite close_last_line_quoted.
      now eexists. }
    split.
    + intros e. unfold emitted_lines.
      destruct (wrap t d) as [lines| |] eqn:Hw; cbn [obind].
      * destruct (Hret _ eq_refl) as (more & closed & _ & ->). discriminate.
      * unfold wrap in Hw. destruct (wrap_loop _ t d 0 []); discriminate.
      * discriminate.
    + split.
      * intros Hd'. destruct (wrap_terminates t Hd') as [lines Hw].
        destruct (Hret _ Hw) as (more & closed & -> & Hclose).
        now exists more, closed.
      * intros Hd'. now apply wrap_diverges.
Qed.

Lemma short_answer_fails_longer_answer_emits_witness :
  fst (translate_multi_line_block echo_translator
         {| block := multiline_block; regex_block := [];
            indentation_depth := Some 4%Z; content := Some (lit "ab") |}
         (World [] no_files)) = Raise IndexError
  /\ exists more closed,
       wrap (strip_suffix (lit "Line one and line two\\")) 4
       = Return (first_line (strip_suffix (lit "Line one and line two\\")) 4 :: more)
       /\ close_last_line
            (first_line (strip_suffix (lit "Line one and line two\\")) 4 :: more)
          = Return closed.
Proof.
  split.
  - apply (@short_answer_fails_longer_answer_emits echo_translator
             {| block := multiline_block; regex_block := [];
                indentation_depth := Some 4%Z; content := Some (lit "ab") |}
             (World [] no_files) (lit "ab") 4%Z (lit "ab")
             eq_refl eq_refl eq_refl).
    cbn. lia.
  - apply (@short_answer_fails_longer_answer_emits echo_translator
             echoed_multiline (World [] no_files)
             (lit "Line one and line two\\") 4%Z (lit "Line one and line two\\")
             eq_refl eq_refl eq_refl).
    + cbn. lia.
    + unfold endless. intros [_ H]. vm_compute in H. discriminate.
Defined.

(** C4. When the backend's answer ends in two characters [a], [b], the text
    that is wrapped is the answer without them, and the emitted lines and the
    rewritten block are computed from that text alone: whatever [a] and [b]
    are, they reach no emitted line. *)
Theorem backend_suffix_is_dropped :
  forall self mb w msgid d base a b,
    content mb = Some msgid ->
    indentation_depth mb = Some d ->
    translator self (requests w) msgid = Translated (base ++ [a; b]) ->
    strip_suffix (base ++ [a; b]) = base
    /\ fst (translate_multi_line_block self mb w)
       = (lines <~ emitted_lines base d ;;
          Re.sub 1 msgstr_value (msgstr_template d lines) (block mb)).
Proof.
  intros self mb w msgid d base a b Hc Hd Hr.
  rewrite (translate_multi_line_block_answered _ _ _ Hc Hd Hr).
  unfold strip_suffix. rewrite slice_drop_last_two. split; reflexivity.
Qed.

Lemma backend_suffix_is_dropped_witness :
  strip_suffix (lit "Line one and line two" ++ [BS; BS])
  = lit "Line one and line two"
  /\ fst (translate_multi_line_block echo_translator echoed_multiline
            (World [] no_files))
     = (lines <~ emitted_lines (lit "Line one and line two") 4 ;;
        Re.sub 1 msgstr_value (msgstr_template 4 lines) multiline_block).
Proof.
  apply (@backend_suffix_is_dropped echo_translator echoed_multiline
           (World [] no_files) (lit "Line one and line two\\") 4%Z
           (lit "Line one and line two") BS BS eq_refl eq_refl eq_refl).
Defined.

(** *** Widths of the emitted lines *)

Lemma quoted_width_quoted s : quoted_width (quoted s) = len s.
Proof. unfold quoted_width. rewrite len_quoted. lia. Qed.

Lemma wrap_nth t d out k l :
  wrap t d = Return out -> nth_error out k = Some l ->
  (k <> 0%nat -> (quoted_width l <= chunk_size)%Z)
  /\ (k = 0%nat -> l = first_line t d).
Proof.
  intros Hw Hk.
  destruct (wrap_shape _ _ Hw) as [[_ ->]|(_ & more & -> & Hmore)].
  - destruct k; discriminate.
  - destruct k as [|k]; cbn in Hk.
    + injection Hk as <-. split; [congruence|reflexivity].
    + split; [intros _|discriminate].
      rewrite Forall_forall in Hmore.
      destruct (Hmore l (nth_error_In _ _ Hk)) as (chunk & -> & Hlen).
      now rewrite quoted_width_quoted.
Qed.

(** With a depth within 80 and within the text, the first chunk leaves room
    for the indentation. *)
Lemma first_line_chunk t d :
  (0 <= d)%Z -> (d <= chunk_size)%Z -> (d <= len t)%Z ->
  exists text, first_line t d = quoted (spaces d ++ text)
               /\ (len text <= chunk_size - d)%Z.
Proof.
  intros H0 H80 Hlen. eexists. split; [reflexivity|].
  etransitivity; [apply len_slice_le|].
  revert H80. unfold clip, chunk_size. intros H80.
  destruct (Z.ltb_spec (Z.min (80 + 0) (len t) - d) 0); cbn [Z.ltb Z.compare]; lia.
Qed.

(** C3, as amended.  In a rewritten block every emitted line but the last
    has at most 80 characters between its quotes, and the last has at most
    83: its chunk and the three characters of the marker.  For the first
    line the bound counts the indentation, the text after it having at most
    80 minus the depth characters, and holds when the depth is within 80 and
    within the length of the text. *)
Theorem emitted_line_widths :
  forall self mb w out w',
    translate_multi_line_block self mb w = (Return out, w') ->
    exists msgid d raw lines,
      content mb = Some msgid
      /\ indentation_depth mb = Some d
      /\ translator self (requests w) msgid = Translated raw
      /\ emitted_lines (strip_suffix raw) d = Return lines
      /\ Re.sub 1 msgstr_value (msgstr_template d lines) (block mb) = Return out
      /\ forall k line,
           nth_error lines k = Some line ->
           let extra := if Nat.eqb (S k) (length lines) then 3%Z else 0%Z in
           (k <> 0%nat -> (quoted_width line <= chunk_size + extra)%Z)
           /\ (k = 0%nat ->
               (0 <= d)%Z -> (d <= chunk_size)%Z -> (d <= len (strip_suffix raw))%Z ->
               exists text,
                 line = quoted (spaces d ++ text)
                 /\ (len text <= chunk_size - d + extra)%Z
                 /\ (quoted_width line <= chunk_size + extra)%Z).
Proof.
  intros self mb w out w' H.
  destruct (translate_multi_line_block_returned _ _ _ H)
    as (msgid & d & raw & lines & Hc & Hd & Hr & He & Hs).
  exists msgid, d, raw, lines. repeat (split; [assumption|]).
  destruct (emitted_lines_inv _ _ He) as (front & x & Hw & ->).
  set (t := strip_suffix raw) in *.
  intros k line Hk. rewrite length_app. cbn [length].
  destruct (Nat.lt_trichotomy k (length front)) as [Hlt|[Heq|Hgt]].
  - (* a line before the last *)
    rewrite nth_error_app1 in Hk by assumption.
    assert (nth_error (front ++ [quoted x]) k = Some line) as Hk'
      by now rewrite nth_error_app1.
    destruct (wrap_nth _ _ _ Hw Hk') as [Hlater Hfirst].
    destruct (Nat.eqb_spec (S k) (length front + 1)); [lia|]. cbn zeta.
    split.
    + intros Hne. specialize (Hlater Hne). lia.
    + intros E H0 H80 Hlen. rewrite (Hfirst E).
      destruct (first_line_chunk t H0 H80 Hlen) as (text & -> & Htext).
      exists text. rewrite quoted_width_quoted, len_app, len_spaces.
      repeat split; lia.
  - (* the last line *)
    subst k. rewrite nth_error_app2, Nat.sub_diag in Hk by lia.
    injection Hk as <-.
    assert (nth_error (front ++ [quoted x]) (length front) = Some (quoted x)) as Hk'
      by now rewrite nth_error_app2, Nat.sub_diag by lia.
    destruct (wrap_nth _ _ _ Hw Hk') as [Hlater Hfirst].
    destruct (Nat.eqb_spec (S (length front)) (length front + 1)); [|lia]. cbn zeta.
    rewrite quoted_width_quoted, len_app.
    change (len marker) with 3%Z.
    split.
    + intros Hne. specialize (Hlater Hne).
      rewrite quoted_width_quoted in Hlater. lia.
    + intros E H0 H80 Hlen. specialize (Hfirst E).
      destruct (first_line_chunk t H0 H80 Hlen) as (text & Eq & Htext).
      rewrite Eq in Hfirst. unfold quoted in Hfirst.
      injection Hfirst as Hx. apply app_inj_tail in Hx. destruct Hx as [-> _].
      exists (text ++ marker).
      rewrite <- app_assoc, !len_app, len_spaces.
      change (len marker) with 3%Z. repeat split; lia.
  - rewrite nth_error_app2 in Hk by lia.
    destruct (k - length front)%nat as [|[|n]] eqn:E; cbn in Hk; try discriminate.
    lia.
Qed.

(** C3, as stated, fails: at depth 4 the first line of a long text fills all
    80 characters, more than 80 - 4, and a last line that is a full chunk
    has 83. *)
Lemma widths_as_claimed_fail :
  exists out first second,
    fst (translate_multi_line_block echo_translator long_multiline
           (World [] no_files)) = Return out
    /\ emitted_lines (strip_suffix (repeat 97%N 156 ++ [BS; BS])) 4
       = Return [first; second]
    /\ quoted_width first = 80%Z
    /\ quoted_width second = 83%Z
    /\ ~ widths_as_claimed 4 [first; second].
Proof.
  do 3 eexists.
  split; [vm_compute; reflexivity|].
  split; [vm_compute; reflexivity|].
  split; [vm_compute; reflexivity|].
  split; [vm_compute; reflexivity|].
  intros [H _]. vm_compute in H. apply H. reflexivity.
Qed.

Lemma emitted_line_widths_witness :
  exists lines,
    emitted_lines (strip_suffix (repeat 97%N 156 ++ [BS; BS])) 4 = Return lines
    /\ forall k line,
         nth_error lines k = Some line ->
         let extra := if Nat.eqb (S k) (length lines) then 3%Z else 0%Z in
         (k <> 0%nat -> (quoted_width line <= chunk_size + extra)%Z)
         /\ (k = 0%nat ->
             exists text,
               line = quoted (spaces 4 ++ text)
               /\ (len text <= chunk_size - 4 + extra)%Z
               /\ (quoted_width line <= chunk_size + extra)%Z).
Proof.
  assert (exists out,
            translate_multi_line_block echo_translator long_multiline
              (World [] no_files)
            = (Return out, World [repeat 97%N 156 ++ [BS; BS]] no_files))
    as [out H] by (eexists; vm_compute; reflexivity).
  destruct (emitted_line_widths _ _ _ H)
    as (msgid & d & raw & lines & Hc & Hd & Hr & He & _ & Hwidths).
  injection Hc as <-. injection Hd as <-. injection Hr as <-.
  exists lines. split; [assumption|].
  intros k line Hk. destruct (Hwidths k line Hk) as [Hlater Hfirst].
  split; [assumption|]. intros E. apply Hfirst; [assumption| | |];
    vm_compute; discriminate.
Defined.

(** *** Content extraction *)

Lemma str_eqb_eq a : forall b, str_eqb a b = true <-> a = b.
Proof.
  induction a as [|x a IH]; intros [|y b]; cbn; split; intros H;
    try reflexivity; try discriminate.
  - apply andb_true_iff in H. destruct H as [Hx Ha].
    apply N.eqb_eq in Hx. apply IH in Ha. congruence.
  - injection H as -> ->. rewrite N.eqb_refl. cbn. now apply IH.
Qed.

(** The test of line 158 compares three characters with the two of the
    marker, and line 159 keeps the characters it has tested: the step that
    should remove the escaped newline changes nothing. *)
Lemma remove_escaped_newline_keeps cleaned :
  remove_escaped_newline cleaned = cleaned.
Proof.
  unfold remove_escaped_newline.
  destruct (str_eqb (slice cleaned (Some (-3)%Z) None) (lit "\n")) eqn:E;
    [|reflexivity].
  apply str_eqb_eq in E. pose proof (f_equal (@length _) E) as Hlen.
  revert Hlen. unfold slice, clip, len. cbn [Z.ltb Z.compare].
  rewrite length_firstn, length_skipn. intros Hlen.
  change (length (lit "\n")) with 2%nat in Hlen.
  assert (length cleaned = 2%nat) as H2 by lia.
  rewrite H2. cbn. destruct cleaned as [|a [|b [|c r]]]; try discriminate.
  reflexivity.
Qed.

Lemma item_last_rev {A} (s : list A) : item s (-1) = hd_error (rev s).
Proof.
  destruct s as [|a s] using rev_ind; [reflexivity|].
  rewrite item_last, rev_app_distr. reflexivity.
Qed.

Lemma get_indentation_depth_returns s d :
  get_indentation_depth s = Return d -> s <> [] /\ d = depth_of s /\ (1 <= d)%Z.
Proof.
  unfold get_indentation_depth, depth_of.
  destruct s as [|c s']; [discriminate|]. set (s := c :: s').
  change (item s 0) with (Some c). cbn [indexed obind].
  rewrite item_last_rev.
  destruct (rev s) as [|z r] eqn:Er.
  - apply (f_equal (@length _)) in Er. rewrite length_rev in Er. discriminate.
  - cbn [hd_error indexed obind]. intros H. injection H as <-.
    split; [discriminate|].
    destruct (is_quote z).
    + rewrite slice_to. unfold clip. cbn [Z.ltb Z.compare].
      unfold len at 1. rewrite length_firstn.
      pose proof (len_nonneg s). unfold len in *. split; lia.
    + pose proof (len_nonneg s). split; lia.
Qed.

Lemma get_indentation_depth_empty : get_indentation_depth [] = Raise IndexError.
Proof. reflexivity. Qed.

Lemma unset_depth_of s : unset (Some (depth_of s)) = false.
Proof.
  unfold unset, depth_of.
  destruct (rev s) as [|z r]; [reflexivity|].
  pose proof (len_nonneg s).
  destruct (is_quote z); apply Z.eqb_neq; lia.
Qed.

Lemma depth_after_app depth a b :
  depth_after (depth_after depth a) b = depth_after depth (a ++ b).
Proof.
  unfold depth_after.
  destruct (unset depth) eqn:Hu; [|now rewrite Hu].
  destruct a as [|s a']; cbn [app]; [now rewrite Hu|].
  now rewrite unset_depth_of.
Qed.

Lemma clean_fragments_depth : forall fragments depth cleaned depth' cleaned',
  clean_fragments fragments depth cleaned = Return (depth', cleaned') ->
  depth' = depth_after depth (filter discarded fragments)
  /\ (unset depth = true -> first_nonempty (filter discarded fragments)).
Proof.
  induction fragments as [|s rest IH]; intros depth cleaned depth' cleaned' H.
  - cbn in H. injection H as <- <-. unfold depth_after. cbn.
    split; [now destruct (unset depth)|trivial].
  - cbn [clean_fragments] in H. cbn [filter]. fold (discarded s) in H.
    destruct (discarded s) eqn:Hs.
    + destruct (unset depth) eqn:Hu.
      * destruct (get_indentation_depth s) as [d| |] eqn:Hd;
          cbn [obind] in H; try discriminate.
        destruct (get_indentation_depth_returns _ Hd) as (Hne & -> & Hpos).
        destruct (IH _ _ _ _ H) as (-> & _).
        change (s :: filter discarded rest) with ([s] ++ filter discarded rest).
        rewrite <- depth_after_app.
        split; [|intros _; exact Hne].
        f_equal. unfold depth_after. now rewrite Hu.
      * destruct (IH _ _ _ _ H) as (-> & _).
        unfold depth_after. rewrite Hu. split; [reflexivity|discriminate].
    + destruct (IH _ _ _ _ H) as (-> & H2). split; [reflexivity|assumption].
Qed.

Lemma depth_after_nil depth : depth_after depth [] = depth.
Proof. unfold depth_after. now destruct (unset depth). Qed.

Lemma scan_lines_depth : forall lines depth acc depth' acc',
  scan_lines lines depth acc = Return (depth', acc') ->
  depth' = depth_after depth (discarded_fragments lines)
  /\ (unset depth = true -> first_nonempty (discarded_fragments lines)).
Proof.
  induction lines as [|line rest IH]; intros depth acc depth' acc' H.
  - cbn in H. injection H as <- <-. now rewrite depth_after_nil.
  - cbn [scan_lines] in H. unfold discarded_fragments. cbn [flat_map].
    fold (discarded_fragments rest).
    destruct (carries_text line).
    + fold (fragments_of line) in H.
      destruct (clean_fragments (fragments_of line) depth []) as [[d1 c1]| |] eqn:Hc;
        cbn [obind fst snd] in H; try discriminate.
      destruct (clean_fragments_depth _ _ _ Hc) as (-> & Hfirst).
      assert (exists acc1,
                 scan_lines rest
                   (depth_after depth (filter discarded (fragments_of line))) acc1
                 = Return (depth', acc')) as [acc1 H1]
        by (destruct (negb _) in H; eauto).
      destruct (IH _ _ _ _ H1) as (-> & Hrest).
      rewrite depth_after_app. split; [reflexivity|].
      intros Hu. specialize (Hfirst Hu).
      destruct (filter discarded (fragments_of line)) as [|s l] eqn:Hf;
        [|exact Hfirst].
      cbn [app]. apply Hrest. now rewrite depth_after_nil.
    + cbn [app]. now apply IH in H.
Qed.

Lemma depth_of_quoted_tail body c :
  is_quote c = true -> body <> [] -> depth_of (body ++ [c]) = (len (body ++ [c]) - 1)%Z.
Proof.
  intros Hq Hb. unfold depth_of. rewrite rev_app_distr. cbn [rev app]. rewrite Hq.
  rewrite len_app. destruct body; [congruence|]. unfold len. cbn [length]. lia.
Qed.

(** C2, as amended.  On a fresh object, when [get_content] returns: if no
    fragment was discarded the depth is 0; otherwise the depth was set once,
    from the first discarded fragment [s] alone, which is not empty, and it
    is [depth_of s]: one more than the length of [s], or, when [s] ends with
    a quote, one more than the length of [s] without its last two
    characters - the length of [s] minus one for a fragment of indentation
    closed by a quote. *)
Theorem indentation_depth_from_first_discarded :
  forall mt mt',
    indentation_depth mt = None ->
    get_content mt = Return mt' ->
    match discarded_fragments (regex_block mt) with
    | [] => indentation_depth mt' = Some 0%Z
    | s :: _ =>
        s <> []
        /\ indentation_depth mt' = Some (depth_of s)
        /\ (1 <= depth_of s)%Z
        /\ (forall body c, s = body ++ [c] -> is_quote c = true -> body <> [] ->
            indentation_depth mt' = Some (len s - 1)%Z)
    end.
Proof.
  intros mt mt' Hfresh H. unfold get_content in H. rewrite Hfresh in H.
  destruct (scan_lines (regex_block mt) None []) as [[depth acc]| |] eqn:Hscan;
    cbn [obind fst snd] in H; try discriminate.
  injection H as <-. cbn [indentation_depth].
  destruct (scan_lines_depth _ _ _ Hscan) as (-> & Hfirst).
  specialize (Hfirst eq_refl). unfold depth_after. cbn [unset].
  destruct (discarded_fragments (regex_block mt)) as [|s l]; [reflexivity|].
  rewrite unset_depth_of. cbn in Hfirst.
  split; [assumption|]. split; [reflexivity|].
  split.
  - pose proof (unset_depth_of s) as Hu. unfold depth_of in *.
    destruct (rev s); [lia|]. pose proof (len_nonneg s).
    destruct (is_quote c); lia.
  - intros body c -> Hq Hb. now rewrite depth_of_quoted_tail.
Qed.

Lemma indentation_depth_from_first_discarded_witness :
  exists mt mt' s others,
    try_create_multline multiline_block = Some mt
    /\ get_content mt = Return mt'
    /\ discarded_fragments (regex_block mt) = s :: others
    /\ s = lit "    " ++ [DQ]
    /\ indentation_depth mt' = Some (depth_of s)
    /\ indentation_depth mt' = Some (len s - 1)%Z.
Proof.
  pose (mt := MultilineText_init multiline_block (get_regex_block multiline_block)).
  assert (exists mt', get_content mt = Return mt') as [mt' Hget]
    by (eexists; vm_compute; reflexivity).
  pose proof (@indentation_depth_from_first_discarded mt mt' eq_refl Hget) as H.
  assert (discarded_fragments (regex_block mt) = [lit "    " ++ [DQ]; [DQ]]) as Hd
    by (vm_compute; reflexivity).
  rewrite Hd in H. destruct H as (_ & Hdepth & _ & Hlen).
  exists mt, mt', (lit "    " ++ [DQ]), [[DQ]].
  split; [vm_compute; reflexivity|].
  split; [exact Hget|].
  split; [exact Hd|].
  split; [reflexivity|].
  split; [exact Hdepth|].
  apply (Hlen (lit "    ") DQ); [reflexivity|reflexivity|discriminate].
Defined.

(** C2, as stated, fails: in the sample block the first discarded fragment is
    four spaces and a double quote, five characters, and the depth is 4. *)
Lemma depth_is_not_the_fragment_length :
  exists mt mt' s others,
    try_create_multline multiline_block = Some mt
    /\ get_content mt = Return mt'
    /\ discarded_fragments (regex_block mt) = s :: others
    /\ len s = 5%Z
    /\ indentation_depth mt' = Some 4%Z
    /\ indentation_depth mt' <> Some (len s).
Proof.
  do 4 eexists.
  split; [vm_compute; reflexivity|].
  split; [vm_compute; reflexivity|].
  split; [vm_compute; reflexivity|].
  split; [vm_compute; reflexivity|].
  split; [vm_compute; reflexivity|].
  vm_compute. discriminate.
Qed.

(** C5 on the code.  The two lines of the sample block end with the escaped
    newline marker; the content extracted from it keeps both markers, the one
    at its end too. *)
Theorem escaped_newline_is_kept :
  exists mt mt',
    try_create_multline multiline_block = Some mt
    /\ get_content mt = Return mt'
    /\ content mt' = Some (lit "Some text here\n    more text\n")
    /\ remove_escaped_newline (lit "Some text here\n    more text\n")
       = lit "Some text here\n    more text\n".
Proof.
  do 2 eexists.
  split; [vm_compute; reflexivity|].
  split; [vm_compute; reflexivity|].
  split; [vm_compute; reflexivity|].
  apply remove_escaped_newline_keeps.
Qed.

(** *** What a run does to the world *)

Lemma only_local_indexed {A} (x : option A) : only_local (indexed x).
Proof. intros e. destruct x; cbn; intros H; inversion H. exact I. Qed.

Lemma only_local_sub n r repl s : only_local (Re.sub n r repl s).
Proof.
  intros e. unfold Re.sub. destruct (Re.parse_template n repl).
  - destruct (Re.matches r s). discriminate.
  - intros H. inversion H. exact I.
Qed.

Lemma only_local_obind {A B} (m : outcome A) (f : A -> outcome B) :
  only_local m -> (forall a, only_local (f a)) -> only_local (obind m f).
Proof.
  intros Hm Hf e. destruct m; cbn; intros H.
  - now apply (Hf a).
  - injection H as <-. now apply Hm.
  - discriminate.
Qed.

Lemma only_local_get_indentation_depth s : only_local (get_indentation_depth s).
Proof.
  unfold get_indentation_depth.
  apply only_local_obind; [apply only_local_indexed|intros c].
  apply only_local_obind; [apply only_local_indexed|intros c'].
  discriminate.
Qed.

Lemma only_local_clean_fragments : forall fragments depth cleaned,
  only_local (clean_fragments fragments depth cleaned).
Proof.
  induction fragments as [|s rest IH]; intros depth cleaned; cbn [clean_fragments].
  - discriminate.
  - destruct (str_in (strip s) check_punctuation); [|apply IH].
    destruct (unset depth); [|apply IH].
    apply only_local_obind; [apply only_local_get_indentation_depth|intros d].
    apply IH.
Qed.

Lemma only_local_scan_lines : forall lines depth acc,
  only_local (scan_lines lines depth acc).
Proof.
  induction lines as [|line rest IH]; intros depth acc; cbn [scan_lines].
  - discriminate.
  - destruct (carries_text line); [|apply IH].
    apply only_local_obind; [apply only_local_clean_fragments|intros r].
    destruct (negb _); apply IH.
Qed.

Lemma only_local_get_content mt : only_local (get_content mt).
Proof.
  unfold get_content.
  apply only_local_obind; [apply only_local_scan_lines|intros r]. discriminate.
Qed.

Lemma only_local_wrap t d : only_local (wrap t d).
Proof. unfold wrap. intros e. destruct (wrap_loop _ t d 0 []); discriminate. Qed.

Lemma only_local_emitted_lines t d : only_local (emitted_lines t d).
Proof.
  unfold emitted_lines, close_last_line.
  apply only_local_obind; [apply only_local_wrap|intros lines].
  apply only_local_obind; [apply only_local_indexed|intros l].
  apply only_local_indexed.
Qed.

Section Runs.

Variable self : PoFileTranslator.

(** A relation between the world before a run, the exception the run
    ended with and the world after it, which holds of a step that does
    nothing, is kept by sequencing, and holds of a request to the backend
    and of raising a local exception. *)
Variable R : world -> option exn -> world -> Prop.

Hypothesis R_ret : forall w, R w None w.
Hypothesis R_seq : forall w w1 w2 r, R w None w1 -> R w1 r w2 -> R w r w2.
Hypothesis R_raise : forall w e, local_exn e -> R w (Some e) w.
Hypothesis R_translate :
  forall w text,
    R w
      (match translator self (requests w) text with
       | Translated _ => None
       | Failed e => Some (BackendError e)
       end)
      (World (requests w ++ [text]) (files w)).

Lemma respects_ret {A} (a : A) : respects R (ret a).
Proof. intros w o w' H. injection H as <- <-. apply R_ret. Qed.

Lemma respects_pure {A} (o : outcome A) : only_local o -> respects R (pure o).
Proof.
  intros Ho w o' w' H. injection H as <- <-.
  destruct o; cbn; [apply R_ret|apply R_raise; now apply Ho|apply R_ret].
Qed.

Lemma respects_bind {A B} (m : M A) (f : A -> M B) :
  respects R m -> (forall a, respects R (f a)) -> respects R (bind m f).
Proof.
  intros Hm Hf w o w' H. unfold bind in H.
  destruct (m w) as [o1 w1] eqn:E. specialize (Hm _ _ _ E).
  destruct o1 as [a| |].
  - eapply R_seq; [exact Hm|]. now apply (Hf a).
  - injection H as <- <-. exact Hm.
  - injection H as <- <-. exact Hm.
Qed.

Lemma respects_translate text : respects R (translate (translator self) text).
Proof.
  intros w o w' H. unfold translate in H.
  pose proof (R_translate w text) as Ht.
  destruct (translator self (requests w) text); injection H as <- <-; exact Ht.
Qed.

Lemma respects_exists p : respects R (exists_ p).
Proof. intros w o w' H. injection H as <- <-. apply R_ret. Qed.

Lemma respects_read_text p : respects R (read_text p).
Proof.
  intros w o w' H. unfold read_text in H.
  destruct (files w p); injection H as <- <-; [apply R_ret|now apply R_raise].
Qed.

Lemma respects_translate_block block msgid :
  respects R (translate_block self block msgid).
Proof.
  unfold translate_block. destruct (already_translated _); [apply respects_ret|].
  apply respects_bind; [apply respects_pure, only_local_indexed|intros source].
  apply respects_bind; [apply respects_translate|intros translated].
  apply respects_pure, only_local_sub.
Qed.

Lemma respects_process_first_block block :
  respects R (process_first_block self block).
Proof.
  unfold process_first_block.
  apply respects_bind; [apply respects_pure, only_local_indexed|intros raw_msgid].
  apply respects_bind; [apply respects_pure, only_local_indexed|intros raw_msgstr].
  apply respects_bind; [apply respects_translate_block|intros last].
  apply respects_bind; [apply respects_pure, only_local_indexed|intros parts'].
  apply respects_ret.
Qed.

Lemma respects_translate_multi_line_block mb :
  respects R (translate_multi_line_block self mb).
Proof.
  unfold translate_multi_line_block.
  apply respects_bind; [apply respects_pure|intros msgid].
  { intros e. destruct (content mb); intros H; inversion H. exact I. }
  apply respects_bind; [apply respects_translate|intros raw].
  apply respects_bind; [apply respects_pure|intros depth].
  { intros e. destruct (indentation_depth mb); intros H; inversion H. exact I. }
  apply respects_bind; [apply respects_pure, only_local_emitted_lines|intros lines].
  apply respects_pure, only_local_sub.
Qed.

Lemma respects_translate_one block : respects R (translate_one self block).
Proof.
  unfold translate_one. destruct (str_eqb block []); [apply respects_ret|].
  destruct (negb _).
  - apply respects_bind; [apply respects_process_first_block|intros b].
    apply respects_ret.
  - assert (respects R (b <- translate_block self block
                            (Re.findall1 msgid_value block) ;; ret (Some b)))
      as Hdirect.
    { apply respects_bind; [apply respects_translate_block|intros b].
      apply respects_ret. }
    apply respects_bind; [apply respects_pure, only_local_indexed|intros first].
    destruct (str_eqb first []); [|exact Hdirect].
    destruct (try_create_multline block) as [mt|]; [|exact Hdirect].
    apply respects_bind; [apply respects_pure, only_local_get_content|intros mt'].
    apply respects_bind; [apply respects_translate_multi_line_block|intros b].
    apply respects_ret.
Qed.

Lemma respects_translate_blocks : forall file_content result,
  respects R (translate_blocks self file_content result).
Proof.
  induction file_content as [|block rest IH]; intros result; cbn [translate_blocks].
  - apply respects_ret.
  - apply respects_bind; [apply respects_translate_one|intros b]. apply IH.
Qed.

(** When writing a file also stands in the relation, the whole of
    [translate_locale_path] and of [translate_codes] does. *)
Hypothesis R_write :
  forall w p t, R w None (World (requests w) (write_file (files w) p t)).

Lemma respects_write_text p t : respects R (write_text p t).
Proof. intros w o w' H. injection H as <- <-. apply R_write. Qed.

Lemma respects_translate_locale_path locale_path :
  respects R (translate_locale_path self locale_path).
Proof.
  unfold translate_locale_path.
  apply respects_bind; [apply respects_exists|intros present].
  destruct (negb present).
  - apply respects_pure. intros e H. inversion H. cbn. eauto.
  - apply respects_bind; [apply respects_read_text|intros text].
    apply respects_bind; [apply respects_translate_blocks|intros result].
    apply respects_write_text.
Qed.

Lemma respects_translate_paths : forall paths,
  respects R (translate_paths self paths).
Proof.
  induction paths as [|p rest IH]; cbn [translate_paths].
  - apply respects_ret.
  - apply respects_bind; [apply respects_translate_locale_path|intros _].
    exact IH.
Qed.

Lemma respects_translate_codes : respects R (translate_codes self).
Proof. apply respects_translate_paths. Qed.

End Runs.

(** *** The catalog file *)

(** Processing the blocks of a catalog leaves every file as it is. *)
Lemma translate_blocks_keeps_files self file_content result w o w' :
  translate_blocks self file_content result w = (o, w') -> files w' = files w.
Proof.
  apply (@respects_translate_blocks self (fun w _ w' => files w' = files w));
    try reflexivity.
  intros w0 w1 w2 _ H1 H2. congruence.
Qed.

(** The file is written only by a run that returns. *)
Lemma translate_locale_path_writes_last self locale_path w o w' :
  translate_locale_path self locale_path w = (o, w') ->
  o <> Return tt -> files w' = files w.
Proof.
  unfold translate_locale_path, bind, exists_, read_text, pure.
  destruct (files w (po_file_of locale_path (lang_code self))) as [text|] eqn:Hf;
    cbn [negb]; rewrite ?Hf.
  - destruct (translate_blocks self (split [NL; NL] text) [] w) as [o1 w1] eqn:E.
    apply translate_blocks_keeps_files in E.
    destruct o1 as [result| |]; intros H Ho.
    + unfold write_text in H. injection H as <- <-. congruence.
    + injection H as <- <-. exact E.
    + injection H as <- <-. exact E.
  - intros H _. now injection H as <- <-.
Qed.

Lemma trace_ok_app tr : forall new1 earlier new2 r,
  trace_ok tr earlier new1 None ->
  trace_ok tr (earlier ++ new1) new2 r ->
  trace_ok tr earlier (new1 ++ new2) r.
Proof.
  induction new1 as [|text later IH]; intros earlier new2 r H1 H2.
  - now rewrite app_nil_r in H2.
  - cbn [trace_ok app] in *. destruct (tr earlier text).
    + apply IH; [exact H1|]. now rewrite <- app_assoc.
    + destruct H1 as [_ H1]. discriminate.
Qed.

(** A failed request is the last one, and its failure ends the run. *)
Lemma trace_ok_failed tr : forall before earlier text later r e,
  trace_ok tr earlier (before ++ text :: later) r ->
  tr (earlier ++ before) text = Failed e ->
  later = [] /\ r = Some (BackendError e).
Proof.
  induction before as [|b before IH]; intros earlier text later r e H Hf.
  - rewrite app_nil_r in Hf. cbn [trace_ok app] in H. now rewrite Hf in H.
  - cbn [trace_ok app] in H. destruct (tr earlier b).
    + apply (IH _ _ _ _ _ H). now rewrite <- app_assoc.
    + destruct H as [H _]. destruct before; discriminate.
Qed.

Lemma translate_locale_path_traced self locale_path w o w' :
  translate_locale_path self locale_path w = (o, w') ->
  traced (translator self) w (raised o) w'.
Proof.
  apply (@respects_translate_locale_path self (traced (translator self))).
  - intros w0. exists []. now rewrite app_nil_r.
  - intros w0 w1 w2 r (new1 & E1 & T1) (new2 & E2 & T2).
    exists (new1 ++ new2). rewrite E2, E1, app_assoc. split; [reflexivity|].
    apply trace_ok_app; [exact T1|]. now rewrite <- E1.
  - intros w0 e _. exists []. now rewrite app_nil_r.
  - intros w0 text. exists [text]. split; [reflexivity|]. cbn.
    now destruct (translator self (requests w0) text).
  - intros w0 p t. exists []. cbn. now rewrite app_nil_r.
Qed.

(** C8. In a run of [translate_locale_path], if the backend fails on a
    request (the reply to [text], sent after [earlier], is a failure), the
    run raises that very exception of the backend, and the files - the
    catalog among them - are what they were before the run. *)
Theorem backend_failure_leaves_catalog :
  forall self locale_path w o w' earlier text later e,
    translate_locale_path self locale_path w = (o, w') ->
    requests w' = requests w ++ earlier ++ text :: later ->
    translator self (requests w ++ earlier) text = Failed e ->
    o = Raise (BackendError e) /\ files w' = files w.
Proof.
  intros self locale_path w o w' earlier text later e Hrun Hreq Hfail.
  destruct (translate_locale_path_traced _ _ _ Hrun) as (new & Enew & Htrace).
  rewrite Hreq in Enew. apply app_inv_head in Enew. subst new.
  destruct (trace_ok_failed _ _ _ _ _ _ Htrace Hfail) as [_ Hr].
  assert (o = Raise (BackendError e)) as ->
    by (destruct o; cbn in Hr; congruence).
  split; [reflexivity|].
  apply (translate_locale_path_writes_last _ _ _ Hrun). discriminate.
Qed.

Lemma backend_failure_leaves_catalog_witness :
  translate_locale_path flaky_translator [lit "locale"] (World [] one_catalog)
  = (Raise (BackendError (BackendFailure 429)),
     World [lit "Hello"; lit "World"] one_catalog)
  /\ files (World [lit "Hello"; lit "World"] one_catalog)
     = files (World [] one_catalog).
Proof.
  assert (translate_locale_path flaky_translator [lit "locale"]
            (World [] one_catalog)
          = (Raise (BackendError (BackendFailure 429)),
             World [lit "Hello"; lit "World"] one_catalog)) as Hrun
    by (vm_compute; reflexivity).
  split; [exact Hrun|].
  apply (@backend_failure_leaves_catalog flaky_translator [lit "locale"]
           (World [] one_catalog) _ _ [lit "Hello"] (lit "World") []
           (BackendFailure 429) Hrun); reflexivity.
Defined.

(** With a backend that answers, the same catalog is rewritten. *)
Example translate_locale_path_writes :
  exists w',
    translate_locale_path echo_translator [lit "locale"] (World [] one_catalog)
    = (Return tt, w')
    /\ files w' (po_file_of [lit "locale"] (lit "fr"))
       = Some (join [NL; NL]
                 [ join [NL] [lit "msgid " ++ quoted (lit "Hello");
                              lit "msgstr " ++ quoted (lit "Hello")];
                   join [NL] [lit "msgid " ++ quoted (lit "World");
                              lit "msgstr " ++ quoted (lit "World")] ]).
Proof.
  eexists. split; vm_compute; reflexivity.
Qed.

(** *** The unsupported-language error *)

Lemma local_exn_not_unsupported e : local_exn e -> ~ unsupported_language_error e.
Proof.
  intros Hlocal (lang & cause & ->). cbn in Hlocal.
  destruct Hlocal as (lang' & Hmsg & _).
  unfold unsupported_message, missing_message in Hmsg. cbn in Hmsg. discriminate.
Qed.

Lemma excludes_unsupported_ret : forall w, excludes_unsupported w None w.
Proof. intros w e H. discriminate. Qed.

Lemma excludes_unsupported_seq :
  forall w w1 w2 r,
    excludes_unsupported w None w1 -> excludes_unsupported w1 r w2 ->
    excludes_unsupported w r w2.
Proof. intros w w1 w2 r _ H. exact H. Qed.

Lemma excludes_unsupported_raise :
  forall w e, local_exn e -> excludes_unsupported w (Some e) w.
Proof.
  intros w e Hlocal e' H. injection H as <-. now apply local_exn_not_unsupported.
Qed.

Lemma excludes_unsupported_translate self :
  forall w text,
    excludes_unsupported w
      (match translator self (requests w) text with
       | Translated _ => None
       | Failed e => Some (BackendError e)
       end)
      (World (requests w ++ [text]) (files w)).
Proof.
  intros w text e H (lang & cause & ->).
  destruct (translator self (requests w) text); discriminate.
Qed.

Lemma excludes_unsupported_write :
  forall w p t,
    excludes_unsupported w None (World (requests w) (write_file (files w) p t)).
Proof. intros w p t e H. discriminate. Qed.

Lemma respects_never_unsupported {A} (m : M A) :
  respects excludes_unsupported m -> never_unsupported m.
Proof.
  intros Hm w o w' e Hrun ->. now apply (Hm _ _ _ Hrun e).
Qed.

(** No operation of a translator raises the unsupported-language error. *)
Lemma per_call_never_unsupported self :
  (forall block msgid, never_unsupported (translate_block self block msgid))
  /\ (forall block, never_unsupported (process_first_block self block))
  /\ (forall mb, never_unsupported (translate_multi_line_block self mb))
  /\ (forall locale_path, never_unsupported (translate_locale_path self locale_path))
  /\ never_unsupported (translate_codes self).
Proof.
  pose proof excludes_unsupported_ret as H1.
  pose proof excludes_unsupported_seq as H2.
  pose proof excludes_unsupported_raise as H3.
  pose proof (excludes_unsupported_translate self) as H4.
  pose proof excludes_unsupported_write as H5.
  repeat split; intros; apply respects_never_unsupported.
  - now apply respects_translate_block.
  - now apply respects_process_first_block.
  - now apply respects_translate_multi_line_block.
  - now apply respects_translate_locale_path.
  - now apply respects_translate_codes.
Qed.

(** C9. When the backend's constructor refuses the language code as
    unsupported, [PoFileTranslator(lang_code)] raises the unsupported-language
    error itself, in the constructor.  A translator that was constructed
    raises that error in none of its operations: [translate_block],
    [process_first_block], [translate_multi_line_block],
    [translate_locale_path] and [translate_codes]. *)
Theorem unsupported_language_raised_at_construction :
  forall LOCALE_PATHS GoogleTranslator lang_code,
    (GoogleTranslator lang_code = Refused LanguageNotSupportedException ->
     PoFileTranslator_init LOCALE_PATHS GoogleTranslator lang_code
     = Raise (TranslatorError (unsupported_message lang_code)
                (Some LanguageNotSupportedException))
     /\ unsupported_language_error
          (TranslatorError (unsupported_message lang_code)
             (Some LanguageNotSupportedException)))
    /\ (forall self,
          PoFileTranslator_init LOCALE_PATHS GoogleTranslator lang_code = Return self ->
          (forall block msgid, never_unsupported (translate_block self block msgid))
          /\ (forall block, never_unsupported (process_first_block self block))
          /\ (forall mb, never_unsupported (translate_multi_line_block self mb))
          /\ (forall locale_path,
                never_unsupported (translate_locale_path self locale_path))
          /\ never_unsupported (translate_codes self)).
Proof.
  intros paths ctor lang. split.
  - intros Hrefused. unfold PoFileTranslator_init. rewrite Hrefused. split; [reflexivity|].
    now exists lang, (Some LanguageNotSupportedException).
  - intros self _. apply per_call_never_unsupported.
Qed.

Lemma unsupported_language_raised_at_construction_witness :
  PoFileTranslator_init [[lit "locale"]] french_only (lit "xx")
  = Raise (TranslatorError (unsupported_message (lit "xx"))
             (Some LanguageNotSupportedException))
  /\ PoFileTranslator_init [[lit "locale"]] french_only (lit "fr") = Return echo_translator
  /\ never_unsupported (translate_codes echo_translator).
Proof.
  split; [|split].
  - apply (@unsupported_language_raised_at_construction
             [[lit "locale"]] french_only (lit "xx")). reflexivity.
  - reflexivity.
  - apply (@unsupported_language_raised_at_construction
             [[lit "locale"]] french_only (lit "fr")). reflexivity.
Defined.

(** *** Rewriting twice *)




(* ================================================================== *)
(** ** Further properties *)

(** *** When the wrapping loop ends *)

(** [re.sub] returns or raises. *)
Lemma sub_not_diverge n r repl s : Re.sub n r repl s <> Diverge.
Proof.
  unfold Re.sub. destruct (Re.parse_template n repl); [|discriminate].
  destruct (Re.matches r s). discriminate.
Qed.

Lemma close_last_line_not_diverge lines : close_last_line lines <> Diverge.
Proof.
  unfold close_last_line.
  destruct (item lines (-1)) as [l|]; cbn [indexed obind]; [|discriminate].
  destruct (set_item lines (-1) _); discriminate.
Qed.

(** The lines are not emitted exactly when the loop does not end. *)
Lemma emitted_lines_diverge t d :
  emitted_lines t d = Diverge <-> t <> [] /\ endless d.
Proof.
  unfold emitted_lines. split.
  - intros H.
    assert (endless d) as Hend.
    { destruct (Z_lt_le_dec 0 d) as [Hpos|Hneg];
        [destruct (Z.eq_dec (d mod chunk_size) 0) as [Hm|Hm]; [now split|]|];
        exfalso;
        (destruct (wrap_terminates t (d := d)) as [lines Hw];
         [unfold endless; intros [? ?]; lia || congruence|]);
        rewrite Hw in H; cbn [obind] in H;
        now apply close_last_line_not_diverge in H. }
    split; [|exact Hend]. intros ->.
    assert (wrap [] d = Return []) as Hw
      by (unfold wrap; now rewrite wrap_loop_done by (unfold len; cbn; lia)).
    rewrite Hw in H. discriminate.
  - intros [Hne Hend]. unfold wrap. now rewrite (wrap_diverges Hne Hend).
Qed.

(** X1. With its attributes set and an answer [raw] from the backend,
    [translate_multi_line_block] fails to return - its loop runs for ever -
    exactly when the answer has three characters or more and the indentation
    depth is a positive multiple of 80. *)
Theorem rewriter_hangs_exactly_at_endless_depth :
  forall self mb w msgid d raw,
    content mb = Some msgid ->
    indentation_depth mb = Some d ->
    translator self (requests w) msgid = Translated raw ->
    (fst (translate_multi_line_block self mb w) = Diverge
     <-> (3 <= length raw)%nat /\ endless d).
Proof.
  intros self mb w msgid d raw Hc Hd Hr.
  rewrite (translate_multi_line_block_answered _ _ _ Hc Hd Hr). cbn [fst].
  assert (strip_suffix raw <> [] <-> (3 <= length raw)%nat) as Hlen.
  { split.
    - intros Hne. destruct (Nat.le_gt_cases (length raw) 2) as [Hshort|Hlong];
        [|lia].
      exfalso. apply Hne. apply (slice_drop_last_two_short _ Hshort).
    - apply slice_drop_last_two_long. }
  rewrite <- Hlen, <- emitted_lines_diverge.
  destruct (emitted_lines (strip_suffix raw) d) as [lines| |]; cbn [obind];
    split; try discriminate; try reflexivity.
  intros H. now apply sub_not_diverge in H.
Qed.

Lemma rewriter_hangs_exactly_at_endless_depth_witness :
  fst (translate_multi_line_block echo_translator deep_multiline
         (World [] no_files)) = Diverge
  <-> (3 <= length (lit "abc"))%nat /\ endless 80.
Proof.
  apply (@rewriter_hangs_exactly_at_endless_depth echo_translator deep_multiline
           (World [] no_files) (lit "abc") 80%Z (lit "abc")
           eq_refl eq_refl eq_refl).
Defined.

(** *** What the emitted lines hold *)

(** From a cursor that is not negative, the window of the loop is the next
    80 characters of the text. *)
Lemma window_firstn (t : str) (i : Z) :
  (0 <= i)%Z ->
  slice t (Some i) (Some (Z.min (chunk_size + i) (len t)))
  = firstn 80 (skipn (Z.to_nat i) t).
Proof.
  intros Hi. unfold slice, clip, chunk_size, len.
  destruct (Z.ltb_spec i 0); [lia|].
  destruct (Z.ltb_spec (Z.min (80 + i) (Z.of_nat (length t))) 0); [lia|].
  destruct (Z_le_gt_dec i (Z.of_nat (length t))) as [Hle|Hgt].
  - replace (Z.to_nat (Z.min i (Z.of_nat (length t)))) with (Z.to_nat i) by lia.
    set (rest := skipn (Z.to_nat i) t).
    assert (length rest = (length t - Z.to_nat i)%nat) as Hrest
      by (unfold rest; apply length_skipn).
    destruct (Z_le_gt_dec (80 + i) (Z.of_nat (length t))).
    + f_equal. lia.
    + rewrite !firstn_all2 by lia. reflexivity.
  - rewrite (skipn_all2 (n := Z.to_nat i)) by lia.
    replace (Z.to_nat _) with 0%nat by lia. reflexivity.
Qed.

Lemma in_firstn {A} (x : A) n (l : list A) : In x (firstn n l) -> In x l.
Proof.
  intros H. rewrite <- (firstn_skipn n l). apply in_or_app. now left.
Qed.

Lemma in_skipn {A} (x : A) n (l : list A) : In x (skipn n l) -> In x l.
Proof.
  intros H. rewrite <- (firstn_skipn n l). apply in_or_app. now right.
Qed.

Lemma in_slice {A} (x : A) (s : list A) a b : In x (slice s a b) -> In x s.
Proof.
  unfold slice. intros H. apply in_firstn in H. now apply in_skipn in H.
Qed.

Lemma backslash_free_slice s a b :
  backslash_free s -> backslash_free (slice s a b).
Proof.
  unfold backslash_free. rewrite !Forall_forall. intros H x Hx.
  apply H. now apply in_slice in Hx.
Qed.

(** A text without backslash does not end with the escaped newline. *)
Lemma no_escaped_newline_end (s : str) :
  backslash_free s ->
  str_eqb (slice s (Some (-2)%Z) None) (lit "\n") = false.
Proof.
  intros Hs. destruct (str_eqb _ _) eqn:E; [|reflexivity].
  apply str_eqb_eq in E.
  assert (In BS (slice s (Some (-2)%Z) None)) as Hin by (rewrite E; now left).
  apply in_slice in Hin. unfold backslash_free in Hs.
  rewrite Forall_forall in Hs. now destruct (Hs _ Hin).
Qed.

Lemma str_eqb_nil_false (s : str) : s <> [] -> str_eqb s [] = false.
Proof. destruct s; [congruence|reflexivity]. Qed.

(** After the first line, a text without backslash is cut into windows of 80
    characters, nothing left out. *)
Lemma wrap_loop_windows fuel : forall t d i lines out,
  backslash_free t -> (0 < i)%Z ->
  wrap_loop fuel t d i lines = Some out ->
  exists cs,
    out = lines ++ map quoted cs
    /\ concat cs = skipn (Z.to_nat i) t
    /\ Forall (fun c => c <> [] /\ (len c <= chunk_size)%Z) cs.
Proof.
  induction fuel as [|fuel IH]; intros t d i lines out Ht Hi Hrun;
    destruct (Z.lt_ge_cases i (len t)) as [Hlt|Hge];
    try (rewrite wrap_loop_done in Hrun by assumption; injection Hrun as <-;
         exists []; rewrite app_nil_r, skipn_all2 by (unfold len in Hge; lia);
         repeat split; constructor).
  - rewrite wrap_loop_out_of_fuel in Hrun by assumption. discriminate.
  - cbn [wrap_loop] in Hrun.
    destruct (Z.ltb_spec i (len t)); [|lia].
    destruct (Z.eqb_spec i 0); [lia|].
    pose proof (window_le_chunk_size t i) as Hw.
    rewrite window_firstn in Hrun, Hw by lia.
    set (window := firstn 80 (skipn (Z.to_nat i) t)) in *.
    assert (window <> []) as Hne.
    { unfold window. intros E. apply (f_equal (@length _)) in E.
      rewrite length_firstn, length_skipn in E. unfold len in Hlt.
      cbn [length] in E. lia. }
    rewrite (str_eqb_nil_false Hne) in Hrun.
    assert (backslash_free window) as Hfree.
    { unfold window, backslash_free in *. rewrite !Forall_forall in *.
      intros x Hx. apply Ht. apply in_firstn in Hx. now apply in_skipn in Hx. }
    rewrite (no_escaped_newline_end Hfree) in Hrun.
    apply IH in Hrun; [|assumption|unfold chunk_size; lia].
    destruct Hrun as (cs & -> & Hcat & Hall).
    exists (window :: cs). rewrite <- app_assoc. cbn [map app concat].
    split; [reflexivity|]. split.
    + rewrite Hcat. unfold window, chunk_size.
      replace (Z.to_nat (i + 80)) with (80 + Z.to_nat i)%nat by lia.
      rewrite <- skipn_skipn. apply firstn_skipn.
    + constructor; [split; assumption|assumption].
Qed.

Lemma not_endless_below_chunk_size d :
  (0 <= d)%Z -> (d < chunk_size)%Z -> ~ endless d.
Proof.
  unfold endless, chunk_size. intros H0 H80 [Hpos Hmod].
  rewrite Z.mod_small in Hmod by lia. lia.
Qed.

(** The loop on a text without backslash, at a depth from 0 to 79: the
    first line and the windows after it. *)
Lemma wrap_windows t d :
  t <> [] -> backslash_free t -> (0 <= d)%Z -> (d < chunk_size)%Z ->
  exists cs,
    wrap t d = Return (first_line t d :: map quoted cs)
    /\ concat cs = skipn (Z.to_nat (chunk_size - d)) t
    /\ Forall (fun c => c <> [] /\ (len c <= chunk_size)%Z) cs.
Proof.
  intros Hne Ht H0 H80.
  destruct (wrap_terminates t (not_endless_below_chunk_size H0 H80)) as [lines Hw].
  rewrite Hw. revert Hw. unfold wrap.
  destruct (wrap_loop _ t d 0 []) as [out|] eqn:Hrun; [|discriminate].
  intros E. injection E as <-.
  assert (0 < len t)%Z as Hpos
    by (destruct t; [congruence|unfold len; cbn [length]; lia]).
  unfold wrap_fuel in Hrun.
  replace (Z.to_nat (len t + Z.abs d + 2))
    with (S (Z.to_nat (len t + Z.abs d + 1))) in Hrun by lia.
  rewrite wrap_loop_first in Hrun by assumption.
  apply wrap_loop_windows in Hrun; [|assumption|lia].
  destruct Hrun as (cs & -> & Hcat & Hall).
  exists cs. cbn [app]. rewrite Z.add_0_l in Hcat. repeat split; assumption.
Qed.

Lemma with_marker_last front x :
  with_marker (front ++ [x]) = front ++ [x ++ marker].
Proof.
  induction front as [|y front IH]; [reflexivity|].
  cbn [app]. rewrite <- IH.
  destruct (front ++ [x]) eqn:E; [destruct front; discriminate|reflexivity].
Qed.

Lemma close_last_line_texts front x :
  close_last_line (map quoted (front ++ [x]))
  = Return (map quoted (with_marker (front ++ [x]))).
Proof.
  rewrite with_marker_last, !map_app. cbn [map]. apply close_last_line_quoted.
Qed.

(** X2. A translated text of 80 characters or more without backslash, at a
    depth from 0 to 79, is emitted whole: the texts of the lines - the first
    after its indentation, and the last before its marker - are pieces of at
    most 80 characters, the first of 80 minus the depth, that make up the
    text when put end to end. *)
Theorem long_text_is_emitted_whole :
  forall t d,
    backslash_free t -> (0 <= d)%Z -> (d < chunk_size)%Z ->
    (chunk_size <= len t)%Z ->
    exists c0 cs,
      emitted_lines t d
      = Return (map quoted (with_marker ((spaces d ++ c0) :: cs)))
      /\ c0 ++ concat cs = t
      /\ len c0 = (chunk_size - d)%Z
      /\ Forall (fun c => c <> [] /\ (len c <= chunk_size)%Z) cs.
Proof.
  intros t d Ht H0 H80 Hlen.
  assert (t <> []) as Hne
    by (intros ->; unfold len, chunk_size in Hlen; cbn in Hlen; lia).
  destruct (wrap_windows Hne Ht H0 H80) as (cs & Hw & Hcat & Hall).
  assert (slice t (Some 0%Z) (Some (Z.min (chunk_size + 0) (len t) - d)%Z)
          = firstn (Z.to_nat (chunk_size - d)) t) as Hfirst.
  { rewrite Z.min_l by lia. unfold slice, clip, chunk_size in *.
    cbn [Z.ltb Z.compare].
    destruct (Z.ltb_spec (80 + 0 - d) 0); [lia|].
    rewrite Z.min_l by lia. rewrite Z.min_l by lia.
    cbn [Z.to_nat skipn]. f_equal. lia. }
  exists (firstn (Z.to_nat (chunk_size - d)) t), cs.
  split; [|split; [|split]].
  - unfold emitted_lines. rewrite Hw. cbn [obind].
    unfold first_line. rewrite Hfirst.
    change (quoted ?a :: map quoted cs) with (map quoted (a :: cs)).
    destruct (@exists_last _ ((spaces d ++ firstn (Z.to_nat (chunk_size - d)) t) :: cs)
                ltac:(discriminate)) as (front & x & E).
    rewrite E. apply close_last_line_texts.
  - rewrite Hcat. apply firstn_skipn.
  - unfold len. rewrite length_firstn. unfold len in Hlen. lia.
  - exact Hall.
Qed.

Lemma long_text_is_emitted_whole_witness :
  exists c0 cs,
    emitted_lines (repeat 97%N 156) 4
    = Return (map quoted (with_marker ((spaces 4 ++ c0) :: cs)))
    /\ c0 ++ concat cs = repeat 97%N 156
    /\ len c0 = 76%Z
    /\ Forall (fun c => c <> [] /\ (len c <= chunk_size)%Z) cs.
Proof.
  apply (@long_text_is_emitted_whole (repeat 97%N 156) 4%Z).
  - apply Forall_forall. intros x Hx. apply repeat_spec in Hx. subst x. discriminate.
  - lia.
  - reflexivity.
  - vm_compute. discriminate.
Defined.

(** X3. A translated text that fits in the first line (its length is at
    most 80 minus the depth, and at least the depth) is emitted as one line
    that holds the indentation and the text without its last [depth]
    characters: line 51 cuts the window at [j - depth] also when [j] is the
    end of the text. *)
Theorem short_text_loses_its_end :
  forall self mb w msgid d raw,
    content mb = Some msgid ->
    indentation_depth mb = Some d ->
    translator self (requests w) msgid = Translated raw ->
    strip_suffix raw <> [] ->
    (0 <= d)%Z ->
    (d <= len (strip_suffix raw))%Z ->
    (len (strip_suffix raw) <= chunk_size - d)%Z ->
    let kept := firstn (Z.to_nat (len (strip_suffix raw) - d)) (strip_suffix raw) in
    emitted_lines (strip_suffix raw) d
    = Return [quoted (spaces d ++ kept ++ marker)]
    /\ fst (translate_multi_line_block self mb w)
       = Re.sub 1 msgstr_value
           (msgstr_template d [quoted (spaces d ++ kept ++ marker)]) (block mb).
Proof.
  intros self mb w msgid d raw Hc Hd Hr Hne H0 Hdlen Hlen kept.
  set (t := strip_suffix raw) in *.
  assert (emitted_lines t d = Return [quoted (spaces d ++ kept ++ marker)]) as He.
  { assert (0 < len t)%Z as Hpos
      by (destruct t; [congruence|unfold len; cbn [length]; lia]).
    unfold emitted_lines, wrap, wrap_fuel.
    replace (Z.to_nat (len t + Z.abs d + 2))
      with (S (Z.to_nat (len t + Z.abs d + 1))) by lia.
    rewrite wrap_loop_first by assumption.
    rewrite wrap_loop_done by lia. cbn [app obind].
    assert (first_line t d = quoted (spaces d ++ kept)) as ->.
    { unfold first_line, kept. do 2 f_equal.
      unfold slice, clip, chunk_size, len in *. cbn [Z.ltb Z.compare].
      destruct (Z.ltb_spec (Z.min (80 + 0) (Z.of_nat (length t)) - d) 0); [lia|].
      replace (Z.to_nat (Z.min 0 (Z.of_nat (length t)))) with 0%nat by lia.
      cbn [skipn]. f_equal. lia. }
    change [quoted (spaces d ++ kept)] with ([] ++ [quoted (spaces d ++ kept)]).
    rewrite close_last_line_quoted. cbn [app].
    now rewrite <- app_assoc. }
  split; [exact He|].
  rewrite (translate_multi_line_block_answered _ _ _ Hc Hd Hr). cbn [fst].
  fold t. now rewrite He.
Qed.

Lemma short_text_loses_its_end_witness :
  emitted_lines (lit "Line one and line") 4
  = Return [quoted (spaces 4 ++ lit "Line one and " ++ marker)]
  /\ fst (translate_multi_line_block echo_translator short_multiline
            (World [] no_files))
     = Re.sub 1 msgstr_value
         (msgstr_template 4 [quoted (spaces 4 ++ lit "Line one and " ++ marker)])
         multiline_block.
Proof.
  apply (@short_text_loses_its_end echo_translator short_multiline
           (World [] no_files) (lit "Line one and line\\") 4%Z
           (lit "Line one and line\\") eq_refl eq_refl eq_refl).
  - discriminate.
  - lia.
  - vm_compute. discriminate.
  - vm_compute. discriminate.
Defined.

(** *** When content extraction fails *)

Lemma get_indentation_depth_total s :
  s <> [] -> get_indentation_depth s = Return (depth_of s).
Proof.
  intros Hs. unfold get_indentation_depth.
  destruct s as [|c s']; [congruence|]. set (s := c :: s').
  change (item s 0) with (Some c). cbn [indexed obind].
  rewrite item_last_rev. unfold depth_of.
  destruct (rev s) as [|z r] eqn:Er.
  - apply (f_equal (@length _)) in Er. rewrite length_rev in Er. discriminate.
  - cbn [hd_error indexed obind]. f_equal.
    destruct (is_quote z); [|reflexivity].
    rewrite slice_to. unfold clip. cbn [Z.ltb Z.compare].
    unfold len at 1. rewrite length_firstn.
    pose proof (len_nonneg s). unfold len in *. lia.
Qed.

(** The loop over the fragments raises, with [IndexError], exactly when the
    depth is not set yet and the first discarded fragment is empty. *)
Lemma clean_fragments_outcome : forall fragments depth cleaned,
  if unset depth && first_empty (filter discarded fragments)
  then clean_fragments fragments depth cleaned = Raise IndexError
  else exists r, clean_fragments fragments depth cleaned = Return r.
Proof.
  induction fragments as [|s rest IH]; intros depth cleaned.
  - cbn. rewrite andb_false_r. now eexists.
  - cbn [clean_fragments filter]. fold (discarded s).
    destruct (discarded s) eqn:Hs.
    + destruct (unset depth) eqn:Hu; cbn [andb].
      * destruct s as [|c s'].
        -- reflexivity.
        -- cbn [first_empty].
           rewrite get_indentation_depth_total by discriminate. cbn [obind].
           specialize (IH (Some (depth_of (c :: s'))) cleaned).
           rewrite unset_depth_of in IH. exact IH.
      * specialize (IH depth cleaned). rewrite Hu in IH. exact IH.
    + apply IH.
Qed.

Lemma scan_lines_outcome : forall lines depth acc,
  if unset depth && first_empty (discarded_fragments lines)
  then scan_lines lines depth acc = Raise IndexError
  else exists r, scan_lines lines depth acc = Return r.
Proof.
  induction lines as [|line rest IH]; intros depth acc.
  - cbn. rewrite andb_false_r. now eexists.
  - cbn [scan_lines]. unfold discarded_fragments. cbn [flat_map].
    fold (discarded_fragments rest).
    destruct (carries_text line); [|apply IH].
    fold (fragments_of line).
    set (a := filter discarded (fragments_of line)).
    pose proof (clean_fragments_outcome (fragments_of line) depth []) as Hc.
    fold a in Hc.
    destruct (unset depth) eqn:Hu; cbn [andb] in *.
    + destruct a as [|s a'] eqn:Ea.
      * destruct Hc as [[d1 c1] Hc]. rewrite Hc. cbn [obind fst snd app].
        destruct (clean_fragments_depth _ _ _ Hc) as (-> & _).
        fold a. rewrite Ea, depth_after_nil.
        destruct (negb _);
          [specialize (IH depth (acc ++ [remove_escaped_newline (join [] c1)]))
          |specialize (IH depth acc)];
          rewrite Hu in IH; exact IH.
      * cbn [app first_empty] in *. destruct s as [|c s'].
        -- rewrite Hc. reflexivity.
        -- destruct Hc as [[d1 c1] Hc]. rewrite Hc. cbn [obind fst snd].
           destruct (clean_fragments_depth _ _ _ Hc) as (-> & _).
           fold a. rewrite Ea. unfold depth_after. rewrite Hu.
           destruct (negb _);
             [specialize (IH (Some (depth_of (c :: s')))
                             (acc ++ [remove_escaped_newline (join [] c1)]))
             |specialize (IH (Some (depth_of (c :: s'))) acc)];
             rewrite unset_depth_of in IH; exact IH.
    + destruct Hc as [[d1 c1] Hc]. rewrite Hc. cbn [obind fst snd].
      destruct (clean_fragments_depth _ _ _ Hc) as (-> & _).
      unfold depth_after. rewrite Hu.
      destruct (negb _);
        [specialize (IH depth (acc ++ [remove_escaped_newline (join [] c1)]))
        |specialize (IH depth acc)];
        rewrite Hu in IH; exact IH.
Qed.

(** X4. On a fresh object [get_content] either returns or raises
    [IndexError], and it raises exactly when the first fragment it discards
    is the empty text, on which [get_indentation_depth] reads [string[0]]. *)
Theorem get_content_fails_on_empty_fragment :
  forall mt,
    indentation_depth mt = None ->
    (first_empty (discarded_fragments (regex_block mt)) = true ->
     get_content mt = Raise IndexError)
    /\ (first_empty (discarded_fragments (regex_block mt)) = false ->
        exists mt', get_content mt = Return mt').
Proof.
  intros mt Hfresh. unfold get_content. rewrite Hfresh.
  pose proof (scan_lines_outcome (regex_block mt) None []) as H.
  cbn [unset andb] in H. split; intros Hf; rewrite Hf in H.
  - now rewrite H.
  - destruct H as [r ->]. cbn [obind]. now eexists.
Qed.

Lemma get_content_fails_on_empty_fragment_witness :
  get_content (MultilineText_init indented_first_block
                 (get_regex_block indented_first_block)) = Raise IndexError
  /\ exists mt',
       get_content (MultilineText_init multiline_block
                      (get_regex_block multiline_block)) = Return mt'.
Proof.
  split.
  - apply (@get_content_fails_on_empty_fragment
             (MultilineText_init indented_first_block
                (get_regex_block indented_first_block)) eq_refl).
    vm_compute. reflexivity.
  - apply (@get_content_fails_on_empty_fragment
             (MultilineText_init multiline_block
                (get_regex_block multiline_block)) eq_refl).
    vm_compute. reflexivity.
Defined.

Lemma lstrip_app_nonspace a x b :
  isspace x = false -> lstrip (a ++ x :: b) = lstrip a ++ x :: b.
Proof.
  intros Hx. induction a as [|c a IH]; cbn [app lstrip].
  - now rewrite Hx.
  - destruct (isspace c); [exact IH|reflexivity].
Qed.

Lemma lstrip_spaces ws :
  Forall (fun c => isspace c = true) ws -> lstrip ws = [].
Proof.
  induction 1 as [|c ws Hc _ IH]; [reflexivity|]. cbn [lstrip]. now rewrite Hc.
Qed.

(** White space at the end is stripped no further than a character that is
    not white space. *)
Lemma rstrip_keep p x r :
  isspace x = false -> rstrip (p ++ x :: r) = p ++ x :: rstrip r.
Proof.
  intros Hx. unfold rstrip. rewrite rev_app_distr. cbn [rev].
  rewrite <- app_assoc. cbn [app]. rewrite lstrip_app_nonspace by assumption.
  rewrite rev_app_distr. cbn [rev]. rewrite rev_involutive, <- app_assoc.
  reflexivity.
Qed.

(** [(a + m + z)[1:-1]] is [m]. *)
Lemma slice_inner {A} (a z : A) (m : list A) :
  slice (a :: m ++ [z]) (Some 1%Z) (Some (-1)%Z) = m.
Proof.
  unfold slice, clip, len. cbn [length Z.ltb Z.compare]. rewrite length_app.
  cbn [length].
  replace (Z.to_nat (Z.min 1 (Z.of_nat (S (length m + 1))))) with 1%nat by lia.
  replace (Z.to_nat _) with (length m) by lia.
  cbn [skipn]. apply firstn_length_app.
Qed.

Lemma discarded_fragments_skip skipped : forall lines,
  Forall (fun l => carries_text l = false) skipped ->
  discarded_fragments (skipped ++ lines) = discarded_fragments lines.
Proof.
  induction 1 as [|l skipped Hl _ IH]; [reflexivity|].
  unfold discarded_fragments in *. cbn [app flat_map]. now rewrite Hl.
Qed.

(** X5. A parsed block cannot be read when the first of its groups that
    carries text begins with a quoted line of white space only, followed by
    another quoted line (the layout with a leading indentation line, which
    the rewriter itself produces): [get_content] raises [IndexError]. *)
Theorem leading_indentation_line_breaks_get_content :
  forall mt skipped ws rest z others,
    indentation_depth mt = None ->
    regex_block mt
    = skipped ++ (DQ :: (ws ++ [DQ; NL; DQ] ++ rest) ++ [z]) :: others ->
    Forall (fun l => carries_text l = false) skipped ->
    Forall (fun c => isspace c = true) ws ->
    carries_text (DQ :: (ws ++ [DQ; NL; DQ] ++ rest) ++ [z]) = true ->
    get_content mt = Raise IndexError.
Proof.
  intros mt skipped ws rest z others Hfresh Hblock Hskip Hws Hline.
  unfold get_content. rewrite Hfresh, Hblock.
  pose proof (scan_lines_outcome
                (skipped ++ (DQ :: (ws ++ [DQ; NL; DQ] ++ rest) ++ [z]) :: others)
                None []) as H.
  rewrite (discarded_fragments_skip _ Hskip) in H.
  unfold discarded_fragments in H. cbn [flat_map] in H. rewrite Hline in H.
  unfold fragments_of in H. rewrite slice_inner in H.
  unfold strip in H.
  change (ws ++ [DQ; NL; DQ] ++ rest) with (ws ++ DQ :: NL :: DQ :: rest) in H.
  rewrite lstrip_app_nonspace, (lstrip_spaces Hws) in H by reflexivity.
  cbn [app] in H.
  change (DQ :: NL :: DQ :: rest) with ([DQ; NL] ++ DQ :: rest) in H.
  rewrite (@rstrip_keep [DQ; NL] DQ rest) in H by reflexivity.
  cbn in H.
  assert (scan_lines
            (skipped ++ (DQ :: (ws ++ [DQ; NL; DQ] ++ rest) ++ [z]) :: others)
            None [] = Raise IndexError) as E by exact H.
  now rewrite E.
Qed.

Lemma leading_indentation_line_breaks_get_content_witness :
  exists mt,
    try_create_multline indented_first_block = Some mt
    /\ get_content mt = Raise IndexError.
Proof.
  eexists. split; [vm_compute; reflexivity|].
  apply (@leading_indentation_line_breaks_get_content _
           [lit "msgid " ++ [DQ; DQ; NL; DQ] ++ lit "\n" ++ [DQ; NL]; []]
           (lit "    ")
           (lit "    Some text here\n" ++ [DQ; NL; DQ] ++ lit "    " ++ [DQ])
           NL
           [quoted (lit "    ") ++ [NL]; lit "msgstr"]).
  - reflexivity.
  - vm_compute. reflexivity.
  - repeat constructor.
  - repeat constructor.
  - vm_compute. reflexivity.
Defined.

(** *** Replacement templates without escapes *)

Lemma tokenize_app : forall n a b ta,
  (length a <= n)%nat ->
  Re.tokenize a = Some ta ->
  Re.tokenize (a ++ b) = option_map (app ta) (Re.tokenize b).
Proof.
  induction n as [|n IH]; intros a b ta Hlen Ha.
  - destruct a; [|cbn in Hlen; lia]. cbn in Ha. injection Ha as <-.
    cbn [app]. now destruct (Re.tokenize b).
  - destruct a as [|c a]; [cbn in Ha; injection Ha as <-; cbn [app];
                           now destruct (Re.tokenize b)|].
    cbn [app Re.tokenize] in *. destruct (N.eqb c BS).
    + destruct a as [|e a]; [discriminate|]. cbn [app].
      destruct (Re.tokenize a) as [ta'|] eqn:Ea; [|discriminate].
      cbn [option_map] in Ha. injection Ha as <-.
      rewrite (@IH a b ta') by (cbn in Hlen; lia || assumption).
      now destruct (Re.tokenize b).
    + destruct (Re.tokenize a) as [ta'|] eqn:Ea; [|discriminate].
      cbn [option_map] in Ha. injection Ha as <-.
      rewrite (@IH a b ta') by (cbn in Hlen; lia || assumption).
      now destruct (Re.tokenize b).
Qed.

Lemma expands_app a ea b eb :
  expands a ea -> expands b eb -> expands (a ++ b) (ea ++ eb).
Proof.
  intros (ta & Ha & Sa & <-) (tb & Hb & Sb & <-).
  exists (ta ++ tb). split; [|split].
  - rewrite (@tokenize_app (length a) a b ta (Nat.le_refl _) Ha), Hb. reflexivity.
  - apply Forall_app. now split.
  - apply map_app.
Qed.

Lemma expands_plain s : backslash_free s -> expands s s.
Proof.
  intros Hs. exists (map Re.TChar s). split; [|split].
  - induction Hs as [|c s Hc _ IH]; [reflexivity|].
    cbn [Re.tokenize map]. apply N.eqb_neq in Hc. now rewrite Hc, IH.
  - apply Forall_forall. intros t Ht. apply in_map_iff in Ht.
    destruct Ht as (c & <- & _). exact I.
  - rewrite map_map. apply map_id.
Qed.

Lemma expands_marker : expands marker [BS; 110%N].
Proof.
  exists [Re.TEsc BS; Re.TChar 110%N]. repeat split.
  repeat constructor.
Qed.

Lemma expands_join sep esep : forall l el,
  expands sep esep ->
  Forall2 expands l el ->
  expands (join sep l) (join esep el).
Proof.
  intros l el Hsep H. induction H as [|x ex l el Hx Hl IH].
  - apply expands_plain. constructor.
  - destruct Hl as [|y ey l el Hy Hl].
    + exact Hx.
    + change (join sep (x :: y :: l)) with (x ++ sep ++ join sep (y :: l)).
      change (join esep (ex :: ey :: el)) with (ex ++ esep ++ join esep (ey :: el)).
      apply expands_app; [exact Hx|]. apply expands_app; [exact Hsep|exact IH].
Qed.

Lemma parse_simple ngroups : forall toks,
  Forall simple_token toks ->
  forall fuel, (length toks < fuel)%nat ->
  Re.parse fuel ngroups toks
  = Some (map (fun t => Re.Literal [token_char t]) toks).
Proof.
  induction 1 as [|t toks Ht _ IH]; intros fuel Hfuel;
    (destruct fuel as [|fuel]; [lia|]); cbn [Re.parse map]; [reflexivity|].
  cbn [length] in Hfuel. destruct t as [c|c]; cbn [token_char].
  - rewrite IH by lia. reflexivity.
  - cbn in Ht. subst c.
    change (N.eqb BS 103) with false. change (N.eqb BS 48) with false.
    change (Re.is_digit BS) with false. change (Re.escape BS) with (Some BS).
    cbv iota. rewrite IH by lia. reflexivity.
Qed.

(** A template of plain characters and doubled backslashes is accepted,
    and every match is replaced by the text it stands for. *)
Lemma expands_parse s e ngroups :
  expands s e ->
  exists tpl,
    Re.parse_template ngroups s = Some tpl /\ forall f, Re.expand tpl f = e.
Proof.
  intros (toks & Htok & Hsimple & <-). unfold Re.parse_template. rewrite Htok.
  exists (map (fun t => Re.Literal [token_char t]) toks). split.
  - apply parse_simple; [assumption|lia].
  - intros f. clear Htok.
    induction Hsimple as [|t toks _ _ IH]; [reflexivity|].
    cbn [map Re.expand app]. now rewrite IH.
Qed.

(** *** Filling an empty field *)

(** The pattern [(.*?)*] may match nothing: one iteration of the group that
    consumes nothing, and what follows. *)
Lemma rmatch_star_lazy_dot_empty post c k m :
  k (DQ :: post) ((1%nat, []) :: c) = Some m ->
  Re.rmatch (Re.star (Re.Group 1 (Re.lazy_star Re.Dot))) (DQ :: post) c k = Some m.
Proof.
  intros Hk. unfold Re.star, Re.lazy_star. cbn [Re.rmatch].
  replace (0 + length (DQ :: post) + 3)%nat with (S (S (length post + 2)))
    by (cbn [length]; lia).
  cbn [Nat.ltb Nat.leb Re.moved].
  replace (0 + length (DQ :: post) + 3)%nat with (S (S (length post + 2)))
    by (cbn [length]; lia).
  cbn [Nat.ltb Nat.leb Re.moved].
  rewrite Nat.eqb_refl. cbn [negb].
  replace (Re.consumed (DQ :: post) (DQ :: post)) with (@nil char)
    by (unfold Re.consumed; now rewrite Nat.sub_diag).
  match goal with
  | |- context [k ?a ?b] => replace (k a b) with (Some m) by (symmetry; exact Hk)
  end.
  reflexivity.
Qed.

Lemma rmatch_seq r1 r2 s c k :
  Re.rmatch (Re.Seq r1 r2) s c k
  = Re.rmatch r1 s c (fun s' c' => Re.rmatch r2 s' c' k).
Proof. reflexivity. Qed.

Lemma match_at_msgstr_field_needs_open s :
  starts_with msgstr_open s = false -> Re.match_at msgstr_field s = None.
Proof.
  intros H. unfold Re.match_at, msgstr_field. cbn [Re.seq].
  change (lit "msgstr " ++ [DQ]) with msgstr_open.
  now rewrite rmatch_seq, rmatch_text, H.
Qed.

(** At an opening [msgstr ] and quote with the closing quote right after
    it, the pattern of line 27 matches the empty field. *)
Lemma match_at_msgstr_field_empty post :
  Re.match_at msgstr_field (msgstr_open ++ DQ :: post) = Some (post, [(1%nat, [])]).
Proof.
  unfold Re.match_at, msgstr_field. cbn [Re.seq].
  change (lit "msgstr " ++ [DQ]) with msgstr_open.
  rewrite rmatch_seq, rmatch_text.
  assert (starts_with msgstr_open (msgstr_open ++ DQ :: post) = true) as ->
    by reflexivity.
  change (skipn (length msgstr_open) (msgstr_open ++ DQ :: post)) with (DQ :: post).
  rewrite rmatch_seq. apply rmatch_star_lazy_dot_empty.
  cbn [Re.rmatch]. now rewrite N.eqb_refl.
Qed.

(** A pattern that needs the opening [msgstr ] and quote is found nowhere
    in a text in which the opening is absent. *)
Lemma search_absent r s :
  (forall s', starts_with msgstr_open s' = false -> Re.match_at r s' = None) ->
  absent msgstr_open s = true ->
  Re.search r s = None.
Proof.
  intros Hr Hs. unfold Re.search.
  rewrite <- (app_nil_r s). rewrite search_from_skip.
  - cbn [Re.search_from]. now rewrite Hr.
  - intros a b E Hb. apply Hr.
    unfold absent in Hs. apply negb_true_iff in Hs.
    now apply (@starts_within_false _ _ _ Hs a b).
Qed.

Lemma matches_first_only r pre hit post s' c :
  (forall s, starts_with msgstr_open s = false -> Re.match_at r s = None) ->
  starts_within msgstr_open pre (hit ++ post) = false ->
  Re.match_at r (hit ++ post) = Some (post, c) ->
  hit <> [] ->
  absent msgstr_open post = true ->
  s' = pre ++ hit ++ post ->
  Re.matches r s' = ([Re.Found pre hit c post], post).
Proof.
  intros Hr Hpre Hm Hhit Hpost ->. unfold Re.matches.
  cbn [Re.scan]. unfold Re.search at 1.
  rewrite search_from_skip.
  - rewrite (@search_from_found _ _ _ _ _ Hm). cbn [Re.whole Re.after rev app].
    rewrite consumed_app. destruct hit as [|h hit]; [congruence|].
    assert (Re.scan (length (pre ++ (h :: hit) ++ post)) r post = ([], post)) as ->.
    { destruct (length (pre ++ (h :: hit) ++ post)); cbn [Re.scan]; [reflexivity|].
      now rewrite (@search_absent r post Hr Hpost). }
    now rewrite app_nil_r, rev_involutive.
  - intros a b E Hb. apply Hr. now apply (@starts_within_false _ _ _ Hpre a b).
Qed.

(** X6. [translate_block] on a block whose first [msgstr] field is empty and
    which has no other [msgstr] field: the first source text is sent to the
    backend, and the block comes back with the answer put between the two
    quotes of the field, the text before and after the field kept as it
    is.  The answer is taken as a template of [re.sub]: it stands in the
    block as it is when it has no backslash, and with each doubled
    backslash made single otherwise. *)
Theorem translate_block_fills_empty_msgstr :
  forall self pre post source others t e w,
    starts_within msgstr_open pre (msgstr_open ++ DQ :: post) = false ->
    absent msgstr_open post = true ->
    translator self (requests w) source = Translated t ->
    expands t e ->
    translate_block self (pre ++ msgstr_open ++ DQ :: post) (source :: others) w
    = (Return (pre ++ msgstr_open ++ e ++ DQ :: post),
       World (requests w ++ [source]) (files w)).
Proof.
  intros self pre post source others t e w Hpre Hpost Hreply Ht.
  unfold translate_block.
  destruct (@findall1_msgstr_value_first pre [] post Hpre (Forall_nil _))
    as [found Hfound].
  cbn [app] in Hfound. rewrite Hfound. cbn [already_translated].
  unfold bind, pure, translate. cbn [item indexed]. 
  change (item (source :: others) 0) with (Some source). cbn [indexed].
  rewrite Hreply. unfold Re.sub.
  assert (expands (lit "msgstr " ++ quoted t) (msgstr_open ++ e ++ [DQ])) as Hrepl.
  { change (lit "msgstr " ++ quoted t) with (msgstr_open ++ t ++ [DQ]).
    apply expands_app; [apply expands_plain; repeat constructor; discriminate|].
    apply expands_app; [exact Ht|].
    apply expands_plain; repeat constructor; discriminate. }
  destruct (@expands_parse _ _ 1 Hrepl) as (tpl & -> & Hexpand).
  rewrite (@matches_first_only msgstr_field pre (msgstr_open ++ [DQ]) post _
             [(1%nat, [])]).
  - cbn [Re.substitute Re.before]. rewrite Hexpand.
    now rewrite <- !app_assoc.
  - exact match_at_msgstr_field_needs_open.
  - rewrite <- app_assoc. exact Hpre.
  - rewrite <- app_assoc. apply match_at_msgstr_field_empty.
  - discriminate.
  - exact Hpost.
  - now rewrite <- app_assoc.
Qed.

Lemma translate_block_fills_empty_msgstr_witness :
  translate_block echo_translator
    (lit "msgid " ++ quoted (lit "Hello") ++ [NL] ++ msgstr_open ++ [DQ; NL])
    [lit "Hello"] (World [] no_files)
  = (Return (lit "msgid " ++ quoted (lit "Hello") ++ [NL] ++ msgstr_open
             ++ lit "Hello" ++ [DQ; NL]),
     World [lit "Hello"] no_files).
Proof.
  apply (@translate_block_fills_empty_msgstr echo_translator
           (lit "msgid " ++ quoted (lit "Hello") ++ [NL]) [NL]
           (lit "Hello") [] (lit "Hello") (lit "Hello") (World [] no_files)).
  - vm_compute. reflexivity.
  - vm_compute. reflexivity.
  - reflexivity.
  - exists (map Re.TChar (lit "Hello")). vm_compute.
    split; [reflexivity|]. split; [repeat constructor|reflexivity].
Defined.


(** *** Answers with a backslash *)

(** A template in which a backslash stands before an ASCII letter that
    names no escape is rejected, whatever comes before it without
    backslash and whatever comes after it. *)
Lemma parse_letter_escape ngroups c rest : forall good fuel,
  Re.is_ascii_letter c = true -> Re.escape c = None -> c <> 103%N ->
  Re.parse fuel ngroups (map Re.TChar good ++ Re.TEsc c :: rest) = None.
Proof.
  intros good fuel Hletter Hescape Hg. revert fuel.
  induction good as [|x good IH]; intros [|fuel]; cbn [Re.parse map app];
    try reflexivity.
  - apply N.eqb_neq in Hg. rewrite Hg.
    assert (N.eqb c 48 = false) as ->.
    { apply N.eqb_neq. intros ->. discriminate. }
    assert (Re.is_digit c = false) as ->.
    { unfold Re.is_ascii_letter, Re.is_digit in *.
      destruct (N.leb_spec 48 c), (N.leb_spec c 57); try reflexivity.
      destruct (N.leb_spec 65 c), (N.leb_spec c 90), (N.leb_spec 97 c),
        (N.leb_spec c 122); cbn in Hletter; try discriminate; lia. }
    now rewrite Hescape, Hletter.
  - now rewrite IH.
Qed.

Lemma parse_template_letter_escape ngroups good c rest :
  backslash_free good ->
  Re.is_ascii_letter c = true -> Re.escape c = None -> c <> 103%N ->
  Re.parse_template ngroups (good ++ BS :: c :: rest) = None.
Proof.
  intros Hgood Hletter Hescape Hg. unfold Re.parse_template.
  destruct (expands_plain Hgood) as (toks & Htok & _ & Hmap).
  assert (Re.tokenize good = Some (map Re.TChar good)) as Hgood'.
  { clear -Hgood. induction Hgood as [|x s Hx _ IH]; [reflexivity|].
    cbn [Re.tokenize map]. apply N.eqb_neq in Hx. now rewrite Hx, IH. }
  rewrite (@tokenize_app (length good) good _ _ (Nat.le_refl _) Hgood').
  cbn [Re.tokenize]. rewrite N.eqb_refl.
  destruct (Re.tokenize rest) as [trest|]; cbn [option_map]; [|reflexivity].
  now apply parse_letter_escape.
Qed.

(** X7. When the first backslash of the backend's answer stands before an
    ASCII letter other than a, b, f, g, n, r, t and v, [translate_block]
    raises the error of [re.sub] for a bad escape.  The request has been
    sent by then, and the error is raised whether or not the block has a
    [msgstr] field to fill. *)
Theorem translate_block_rejects_letter_escape :
  forall self block source others good c rest w,
    already_translated (Re.findall1 msgstr_value block) = false ->
    translator self (requests w) source = Translated (good ++ BS :: c :: rest) ->
    backslash_free good ->
    Re.is_ascii_letter c = true ->
    Re.escape c = None ->
    c <> 103%N ->
    translate_block self block (source :: others) w
    = (Raise TemplateError, World (requests w ++ [source]) (files w)).
Proof.
  intros self block source others good c rest w Hguard Hreply Hgood Hletter
    Hescape Hg.
  unfold translate_block. rewrite Hguard.
  unfold bind, pure, translate.
  change (item (source :: others) 0) with (Some source). cbn [indexed].
  rewrite Hreply. unfold Re.sub.
  change (lit "msgstr " ++ quoted (good ++ BS :: c :: rest))
    with (msgstr_open ++ (good ++ BS :: c :: rest) ++ [DQ]).
  replace (msgstr_open ++ (good ++ BS :: c :: rest) ++ [DQ])
    with ((msgstr_open ++ good) ++ BS :: c :: (rest ++ [DQ]))
    by (now rewrite <- !app_assoc).
  rewrite parse_template_letter_escape; try assumption; [reflexivity|].
  apply Forall_app. split; [|exact Hgood].
  repeat constructor; discriminate.
Qed.

Lemma translate_block_rejects_letter_escape_witness :
  translate_block path_translator (lit "msgid " ++ quoted (lit "Hello"))
    [lit "Hello"] (World [] no_files)
  = (Raise TemplateError, World [lit "Hello"] no_files).
Proof.
  apply (@translate_block_rejects_letter_escape path_translator
           (lit "msgid " ++ quoted (lit "Hello")) (lit "Hello") []
           (lit "See C:") 100%N (lit "ocs") (World [] no_files)).
  - vm_compute. reflexivity.
  - reflexivity.
  - repeat constructor; discriminate.
  - reflexivity.
  - reflexivity.
  - discriminate.
Defined.


(** *** The text written in the place of the field *)

Lemma expands_quoted s e : expands s e -> expands (quoted s) (quoted e).
Proof.
  intros H. change (quoted s) with ([DQ] ++ s ++ [DQ]).
  change (quoted e) with ([DQ] ++ e ++ [DQ]).
  apply expands_app; [apply expands_plain; repeat constructor; discriminate|].
  apply expands_app; [exact H|].
  apply expands_plain; repeat constructor; discriminate.
Qed.

Lemma backslash_free_spaces d : backslash_free (spaces d).
Proof.
  apply Forall_forall. intros x Hx. apply repeat_spec in Hx. subst x. discriminate.
Qed.

(** The closed lines, as a template, stand for the lines with the escaped
    newline at the end of the last one. *)
Lemma expands_lines : forall texts,
  Forall backslash_free texts ->
  Forall2 expands (map quoted (with_marker texts))
    (map quoted (with_escaped_newline texts)).
Proof.
  induction 1 as [|x texts Hx Htexts IH]; [constructor|].
  destruct texts as [|y texts].
  - cbn [with_marker with_escaped_newline map]. constructor; [|constructor].
    apply expands_quoted, expands_app; [now apply expands_plain|].
    apply expands_marker.
  - change (with_marker (x :: y :: texts)) with (x :: with_marker (y :: texts)).
    change (with_escaped_newline (x :: y :: texts))
      with (x :: with_escaped_newline (y :: texts)).
    cbn [map]. constructor; [|exact IH].
    now apply expands_quoted, expands_plain.
Qed.

Lemma expands_msgstr_template d texts :
  Forall backslash_free texts ->
  expands (msgstr_template d (map quoted (with_marker texts)))
    (written_field d texts).
Proof.
  intros Htexts. unfold msgstr_template, written_field, replacement.
  apply expands_app; [apply expands_plain; repeat constructor; discriminate|].
  apply expands_join; [apply expands_plain; repeat constructor; discriminate|].
  cbn [app]. constructor; [|constructor; [|constructor]].
  - apply expands_plain; repeat constructor; discriminate.
  - apply expands_quoted, expands_marker.
  - apply expands_quoted, expands_plain, backslash_free_spaces.
  - apply Forall2_app; [now apply expands_lines|].
    constructor; [|constructor].
    apply expands_quoted, expands_plain, backslash_free_spaces.
Qed.

(** X8. The block that [translate_multi_line_block] returns, for a block
    with one [msgstr] field (a value without double quote and line feed
    between its quotes) and wrapped lines without backslash: the text
    before the field and the text after it are kept, and the field is
    replaced by [msgstr ] and, one to a line, an empty string, a string
    with the escaped newline, the indentation, the emitted lines - the last
    one ending in a single backslash and an n - and the indentation again.
    The content is sent to the backend once. *)
Theorem rewritten_entry_layout :
  forall self mb w msgid d raw texts pre value post,
    content mb = Some msgid ->
    indentation_depth mb = Some d ->
    translator self (requests w) msgid = Translated raw ->
    emitted_lines (strip_suffix raw) d = Return (map quoted (with_marker texts)) ->
    Forall backslash_free texts ->
    block mb = pre ++ msgstr_open ++ value ++ DQ :: post ->
    starts_within msgstr_open pre (msgstr_open ++ value ++ DQ :: post) = false ->
    Forall plain value ->
    absent msgstr_open post = true ->
    translate_multi_line_block self mb w
    = (Return (pre ++ written_field d texts ++ post),
       World (requests w ++ [msgid]) (files w)).
Proof.
  intros self mb w msgid d raw texts pre value post Hc Hd Hreply Hlines Htexts
    Hblock Hpre Hvalue Hpost.
  unfold translate_multi_line_block, bind, pure, translate.
  rewrite Hc, Hreply, Hd, Hlines. unfold Re.sub.
  destruct (@expands_parse _ _ 1 (expands_msgstr_template d Htexts))
    as (tpl & -> & Hexpand).
  rewrite (@matches_first_only msgstr_value pre (msgstr_open ++ value ++ [DQ]) post
             _ [(1%nat, value)]).
  - cbn [Re.substitute Re.before]. now rewrite Hexpand.
  - exact match_at_msgstr_value_needs_open.
  - rewrite <- !app_assoc. exact Hpre.
  - rewrite <- !app_assoc. now apply match_at_msgstr_value.
  - discriminate.
  - exact Hpost.
  - rewrite Hblock. now rewrite <- !app_assoc.
Qed.

Lemma rewritten_entry_layout_witness :
  translate_multi_line_block echo_translator short_multiline (World [] no_files)
  = (Return (multiline_head ++ written_field 4 [lit "    Line one and "] ++ []),
     World [lit "Line one and line\\"] no_files).
Proof.
  apply (@rewritten_entry_layout echo_translator short_multiline (World [] no_files)
           (lit "Line one and line\\") 4%Z (lit "Line one and line\\")
           [lit "    Line one and "] multiline_head [] []).
  - reflexivity.
  - reflexivity.
  - reflexivity.
  - vm_compute. reflexivity.
  - repeat constructor; discriminate.
  - reflexivity.
  - vm_compute. reflexivity.
  - constructor.
  - reflexivity.
Defined.


(** *** The files that a run touches *)

Lemma strs_eqb_eq : forall a b, strs_eqb a b = true <-> a = b.
Proof.
  induction a as [|x a IH]; intros [|y b]; cbn [strs_eqb];
    try (split; [discriminate|discriminate]); [split; reflexivity|].
  rewrite andb_true_iff, str_eqb_eq, IH. split.
  - now intros [-> ->].
  - intros E. injection E as -> ->. now split.
Qed.

Lemma write_file_other fs p t q : p <> q -> write_file fs p t q = fs q.
Proof.
  intros H. unfold write_file, path_eqb.
  destruct (strs_eqb p q) eqn:E; [|reflexivity].
  apply strs_eqb_eq in E. contradiction.
Qed.

Lemma write_file_present fs p t q old :
  fs p = Some old -> fs q = None -> write_file fs p t q = None.
Proof.
  intros Hp Hq. unfold write_file, path_eqb.
  destruct (strs_eqb p q) eqn:E; [|exact Hq].
  apply strs_eqb_eq in E. congruence.
Qed.

(** One call rewrites its catalog, which was there before, or no file. *)
Lemma translate_locale_path_files self locale_path w o w' :
  translate_locale_path self locale_path w = (o, w') ->
  files w' = files w
  \/ exists old new,
       files w (po_file_of locale_path (lang_code self)) = Some old
       /\ files w'
          = write_file (files w) (po_file_of locale_path (lang_code self)) new.
Proof.
  unfold translate_locale_path, bind, exists_, read_text, pure.
  destruct (files w (po_file_of locale_path (lang_code self))) as [text|] eqn:Hf;
    cbn [negb]; rewrite ?Hf.
  - destruct (translate_blocks self (split [NL; NL] text) [] w) as [o1 w1] eqn:E.
    apply translate_blocks_keeps_files in E.
    destruct o1 as [result| |]; intros H.
    + unfold write_text in H. injection H as <- <-. right.
      exists text, (join [NL; NL] result). cbn [files]. rewrite E. now split.
    + injection H as <- <-. now left.
    + injection H as <- <-. now left.
  - intros H. injection H as <- <-. now left.
Qed.

Lemma translate_paths_files self : forall paths w o w' p,
  translate_paths self paths w = (o, w') ->
  (files w p = None -> files w' p = None)
  /\ ((forall locale_path,
          In locale_path paths -> p <> po_file_of locale_path (lang_code self)) ->
      files w' p = files w p).
Proof.
  induction paths as [|locale_path rest IH]; intros w o w' p H;
    cbn [translate_paths] in H.
  - injection H as <- <-. now split.
  - unfold bind in H.
    destruct (translate_locale_path self locale_path w) as [o1 w1] eqn:E.
    assert ((files w p = None -> files w1 p = None)
            /\ (p <> po_file_of locale_path (lang_code self) ->
                files w1 p = files w p)) as [Hnone Hother].
    { destruct (translate_locale_path_files _ _ _ E)
        as [->|(old & new & Hold & ->)]; [now split|]. split.
      - intros Hp. eapply write_file_present; eassumption.
      - intros Hp. apply write_file_other. congruence. }
    destruct o1 as [[]| |].
    + destruct (IH _ _ _ p H) as [IHnone IHother]. split.
      * intros Hp. auto.
      * intros Hp. rewrite IHother, Hother; [reflexivity| |].
        -- apply Hp. now left.
        -- intros lp Hlp. apply Hp. now right.
    + injection H as <- <-. split; [exact Hnone|].
      intros Hp. apply Hother, Hp. now left.
    + injection H as <- <-. split; [exact Hnone|].
      intros Hp. apply Hother, Hp. now left.
Qed.

(** X9. A run of [translate_codes], however it ends, creates no file (a
    path without file before the run has none after it) and leaves every
    file other than the catalogs of its locale paths as it was. *)
Theorem translate_codes_touches_catalogs_only :
  forall self w o w' p,
    translate_codes self w = (o, w') ->
    (files w p = None -> files w' p = None)
    /\ (~ In p (catalogs self) -> files w' p = files w p).
Proof.
  intros self w o w' p H.
  destruct (translate_paths_files _ _ _ p H) as [Hnone Hother].
  split; [exact Hnone|].
  intros Hp. apply Hother. intros locale_path Hin E. apply Hp. rewrite E.
  unfold catalogs.
  exact (in_map (fun l => po_file_of l (lang_code self)) _ _ Hin).
Qed.

Lemma translate_codes_touches_catalogs_only_witness :
  files (snd (translate_codes echo_translator (World [] one_catalog)))
    [lit "locale"; lit "de"; lit "LC_MESSAGES"; lit "django.po"]
  = None.
Proof.
  apply (proj1 (@translate_codes_touches_catalogs_only echo_translator
                  (World [] one_catalog)
                  (fst (translate_codes echo_translator (World [] one_catalog)))
                  (snd (translate_codes echo_translator (World [] one_catalog)))
                  [lit "locale"; lit "de"; lit "LC_MESSAGES"; lit "django.po"]
                  (surjective_pairing _))).
  reflexivity.
Defined.

(** *** The requests of a run *)

Lemma sends_at_most_le {A} (m : M A) a b :
  (a <= b)%nat -> sends_at_most a m -> sends_at_most b m.
Proof.
  intros Hab Hm w o w' H. destruct (Hm _ _ _ H) as (new & E & Hlen).
  exists new. split; [exact E|lia].
Qed.

Lemma sends_at_most_ret {A} (a : A) : sends_at_most 0 (ret a).
Proof.
  intros w o w' H. injection H as <- <-. exists []. now rewrite app_nil_r.
Qed.

Lemma sends_at_most_pure {A} (o : outcome A) : sends_at_most 0 (pure o).
Proof.
  intros w o' w' H. injection H as <- <-. exists []. now rewrite app_nil_r.
Qed.

Lemma sends_at_most_translate tr text : sends_at_most 1 (translate tr text).
Proof.
  intros w o w' H. unfold translate in H. exists [text].
  destruct (tr (requests w) text); injection H as <- <-; now split.
Qed.

Lemma sends_at_most_bind {A B} (m : M A) (f : A -> M B) a b :
  sends_at_most a m -> (forall x, sends_at_most b (f x)) ->
  sends_at_most (a + b) (bind m f).
Proof.
  intros Hm Hf w o w' H. unfold bind in H.
  destruct (m w) as [o1 w1] eqn:E. destruct (Hm _ _ _ E) as (new1 & E1 & H1).
  destruct o1 as [x| |].
  - destruct (Hf x _ _ _ H) as (new2 & E2 & H2).
    exists (new1 ++ new2). rewrite E2, E1, app_assoc, length_app.
    split; [reflexivity|lia].
  - injection H as <- <-. exists new1. split; [exact E1|lia].
  - injection H as <- <-. exists new1. split; [exact E1|lia].
Qed.

Lemma sends_at_most_translate_block self block msgid :
  sends_at_most 1 (translate_block self block msgid).
Proof.
  unfold translate_block. destruct (already_translated _).
  - apply (@sends_at_most_le _ _ 0); [lia|apply sends_at_most_ret].
  - apply (@sends_at_most_bind _ _ _ _ 0 1); [apply sends_at_most_pure|intros source].
    apply (@sends_at_most_bind _ _ _ _ 1 0); [apply sends_at_most_translate|].
    intros translated. apply sends_at_most_pure.
Qed.

Lemma sends_at_most_process_first_block self block :
  sends_at_most 1 (process_first_block self block).
Proof.
  unfold process_first_block.
  apply (@sends_at_most_bind _ _ _ _ 0 1); [apply sends_at_most_pure|intros raw_msgid].
  apply (@sends_at_most_bind _ _ _ _ 0 1); [apply sends_at_most_pure|intros raw_msgstr].
  apply (@sends_at_most_bind _ _ _ _ 1 0); [apply sends_at_most_translate_block|].
  intros last.
  apply (@sends_at_most_bind _ _ _ _ 0 0); [apply sends_at_most_pure|intros parts'].
  apply sends_at_most_ret.
Qed.

Lemma sends_at_most_translate_multi_line_block self mb :
  sends_at_most 1 (translate_multi_line_block self mb).
Proof.
  unfold translate_multi_line_block.
  apply (@sends_at_most_bind _ _ _ _ 0 1); [apply sends_at_most_pure|intros msgid].
  apply (@sends_at_most_bind _ _ _ _ 1 0); [apply sends_at_most_translate|].
  intros raw.
  apply (@sends_at_most_bind _ _ _ _ 0 0); [apply sends_at_most_pure|intros depth].
  apply (@sends_at_most_bind _ _ _ _ 0 0); [apply sends_at_most_pure|intros lines].
  apply sends_at_most_pure.
Qed.

(** One block: no request when it is empty, at most one otherwise. *)
Lemma sends_at_most_translate_one self block :
  sends_at_most (if str_eqb block [] then 0 else 1) (translate_one self block).
Proof.
  unfold translate_one. destruct (str_eqb block []); [apply sends_at_most_ret|].
  destruct (negb _).
  - apply (@sends_at_most_bind _ _ _ _ 1 0);
      [apply sends_at_most_process_first_block|intros b].
    apply sends_at_most_ret.
  - assert (sends_at_most 1 (b <- translate_block self block
                                   (Re.findall1 msgid_value block) ;; ret (Some b)))
      as Hdirect.
    { apply (@sends_at_most_bind _ _ _ _ 1 0);
        [apply sends_at_most_translate_block|intros b].
      apply sends_at_most_ret. }
    apply (@sends_at_most_bind _ _ _ _ 0 1); [apply sends_at_most_pure|intros first].
    destruct (str_eqb first []); [|exact Hdirect].
    destruct (try_create_multline block) as [mt|]; [|exact Hdirect].
    apply (@sends_at_most_bind _ _ _ _ 0 1); [apply sends_at_most_pure|intros mt'].
    apply (@sends_at_most_bind _ _ _ _ 1 0);
      [apply sends_at_most_translate_multi_line_block|intros b].
    apply sends_at_most_ret.
Qed.

Lemma sends_at_most_translate_blocks self : forall file_content result,
  sends_at_most
    (length (filter (fun block => negb (str_eqb block [])) file_content))
    (translate_blocks self file_content result).
Proof.
  induction file_content as [|block rest IH]; intros result;
    cbn [translate_blocks filter].
  - apply sends_at_most_ret.
  - pose proof (sends_at_most_translate_one self block) as Hone.
    destruct (str_eqb block []); cbn [negb length].
    + apply (@sends_at_most_bind _ _ _ _ 0 _); [exact Hone|intros b]. apply IH.
    + apply (@sends_at_most_bind _ _ _ _ 1 _); [exact Hone|intros b]. apply IH.
Qed.

(** X10. A run of [translate_locale_path] on a catalog sends at most one
    request to the backend for each block of the catalog that is not empty
    (the blocks are the texts between blank lines), however the run ends;
    the requests sent before the run stay as they are. *)
Theorem one_request_per_block :
  forall self locale_path w o w' text,
    files w (po_file_of locale_path (lang_code self)) = Some text ->
    translate_locale_path self locale_path w = (o, w') ->
    exists new,
      requests w' = requests w ++ new
      /\ (length new <= length (nonempty_blocks text))%nat.
Proof.
  intros self locale_path w o w' text Hf.
  unfold translate_locale_path, bind, exists_, read_text.
  rewrite Hf. cbn [negb].
  destruct (translate_blocks self (split [NL; NL] text) [] w) as [o1 w1] eqn:E.
  destruct (@sends_at_most_translate_blocks self _ _ _ _ _ E) as (new & Enew & Hlen).
  intros H. rewrite Hf, E in H. exists new. split; [|exact Hlen].
  destruct o1 as [result| |]; [unfold write_text in H|..];
    injection H as <- <-; exact Enew.
Qed.

Lemma one_request_per_block_witness :
  exists new,
    requests (snd (translate_locale_path flaky_translator [lit "locale"]
                     (World [] one_catalog)))
    = requests (World [] one_catalog) ++ new
    /\ (length new <= length (nonempty_blocks two_entries))%nat.
Proof.
  apply (@one_request_per_block flaky_translator [lit "locale"]
           (World [] one_catalog)
           (fst (translate_locale_path flaky_translator [lit "locale"]
                   (World [] one_catalog)))
           (snd (translate_locale_path flaky_translator [lit "locale"]
                   (World [] one_catalog)))
           two_entries).
  - reflexivity.
  - apply surjective_pairing.
Defined.


(** *** Splitting and joining *)







(** *** Catalogs that need no translation *)

Lemma translate_one_settled self block w :
  settled block = true -> translate_one self block w = (Return (Some block), w).
Proof.
  unfold settled. intros H.
  destruct (Re.findall1 msgid_value block) as [|m [|m' rest]] eqn:Hid;
    try discriminate.
  apply andb_true_iff in H. destruct H as [Hm Hstr].
  unfold translate_one.
  destruct (str_eqb block []) eqn:Hb.
  { apply str_eqb_eq in Hb. subst block. discriminate. }
  rewrite Hid. change (negb (len [m] =? 1)%Z) with false. cbv iota.
  unfold bind, pure. change (item [m] 0) with (Some m). cbn [indexed].
  apply negb_true_iff in Hm. rewrite Hm.
  unfold translate_block. rewrite Hstr. reflexivity.
Qed.





(** *** Blocks of one line *)

Lemma split_from_one_line : forall s piece,
  ~ In NL s -> split_from [NL] 0 piece s = [rev piece ++ s].
Proof.
  induction s as [|c s IH]; intros piece H.
  - cbn. now rewrite app_nil_r.
  - cbn [split_from starts_with].
    destruct (N.eqb NL c) eqn:E.
    + apply N.eqb_eq in E. exfalso. apply H. now left.
    + cbn [andb]. rewrite IH by (intros Hs; apply H; now right).
      cbn [rev]. now rewrite <- app_assoc.
Qed.

Lemma translate_one_one_line self block w :
  block <> [] -> ~ In NL block ->
  (len (Re.findall1 msgid_value block) =? 1)%Z = false ->
  translate_one self block w = (Raise IndexError, w).
Proof.
  intros Hne Hnl Hids. unfold translate_one.
  destruct (str_eqb block []) eqn:Hb.
  { apply str_eqb_eq in Hb. contradiction. }
  rewrite Hids. cbn [negb]. unfold bind, process_first_block, split.
  rewrite split_from_one_line by exact Hnl. reflexivity.
Qed.

Lemma translate_blocks_settled_first self : forall before rest result w,
  forallb settled before = true ->
  translate_blocks self (before ++ rest) result w
  = translate_blocks self rest (result ++ before) w.
Proof.
  induction before as [|block before IH]; intros rest result w H;
    cbn [translate_blocks forallb app] in *.
  - now rewrite app_nil_r.
  - apply andb_true_iff in H. destruct H as [Hb Hrest].
    unfold bind at 1. rewrite translate_one_settled by exact Hb.
    rewrite IH by exact Hrest. now rewrite <- app_assoc.
Qed.

(** X12. A block of one line that does not hold exactly one [msgid] value
    - a comment that stands alone between blank lines, say - ends the run
    of [translate_locale_path] with an [IndexError]: [process_first_block]
    takes the last two lines of a block that has one.  When the blocks
    before it are single-line entries that have their translations, nothing
    has been sent to the backend by then; the catalog is not written. *)
Theorem lone_line_ends_the_run :
  forall self locale_path w text before block rest,
    files w (po_file_of locale_path (lang_code self)) = Some text ->
    split [NL; NL] text = before ++ block :: rest ->
    forallb settled before = true ->
    block <> [] ->
    ~ In NL block ->
    len (Re.findall1 msgid_value block) <> 1%Z ->
    translate_locale_path self locale_path w = (Raise IndexError, w).
Proof.
  intros self locale_path w text before block rest Hf Hsplit Hbefore Hne Hnl Hids.
  unfold translate_locale_path, bind, exists_, read_text.
  rewrite Hf. cbn [negb]. rewrite Hf, Hsplit.
  rewrite translate_blocks_settled_first by exact Hbefore.
  cbn [translate_blocks]. unfold bind.
  rewrite translate_one_one_line; try assumption; [reflexivity|].
  now apply Z.eqb_neq.
Qed.

Lemma lone_line_ends_the_run_witness :
  translate_locale_path echo_translator [lit "locale"]
    (World [] (write_file no_files (po_file_of [lit "locale"] (lit "fr"))
                 catalog_with_note))
  = (Raise IndexError,
     World [] (write_file no_files (po_file_of [lit "locale"] (lit "fr"))
                 catalog_with_note)).
Proof.
  apply (@lone_line_ends_the_run echo_translator [lit "locale"] _
           catalog_with_note
           [join [NL] [lit "msgid " ++ quoted (lit "Hello");
                       lit "msgstr " ++ quoted (lit "Bonjour")]]
           (lit "# checked up to here")
           [join [NL] [lit "msgid " ++ quoted (lit "World");
                       lit "msgstr " ++ quoted []]]).
  - reflexivity.
  - vm_compute. reflexivity.
  - vm_compute. reflexivity.
  - discriminate.
  - vm_compute. intros H. repeat (destruct H as [H|H]; [discriminate|]). exact H.
  - vm_compute. discriminate.
Defined.


(** *** Blocks without a field to fill *)

Lemma matches_absent r s :
  (forall s', starts_with msgstr_open s' = false -> Re.match_at r s' = None) ->
  absent msgstr_open s = true ->
  Re.matches r s = ([], s).
Proof.
  intros Hr Hs. unfold Re.matches. cbn [Re.scan].
  now rewrite (@search_absent r s Hr Hs).
Qed.

(** X13. A block in which [msgstr ] and a double quote stand nowhere - an
    entry with plural forms, whose fields are [msgstr[0]] and [msgstr[1]],
    say - is returned as it is by [translate_block], and yet its first
    source text has been sent to the backend (the answer, here one without
    backslash, is dropped). *)
Theorem translate_block_without_field_asks_in_vain :
  forall self block source others t w,
    absent msgstr_open block = true ->
    translator self (requests w) source = Translated t ->
    backslash_free t ->
    translate_block self block (source :: others) w
    = (Return block, World (requests w ++ [source]) (files w)).
Proof.
  intros self block source others t w Habsent Hreply Ht.
  unfold translate_block, Re.findall1.
  rewrite (@matches_absent msgstr_value block match_at_msgstr_value_needs_open Habsent).
  cbn [fst map already_translated].
  unfold bind, pure, translate.
  change (item (source :: others) 0) with (Some source). cbn [indexed].
  rewrite Hreply. unfold Re.sub.
  assert (expands (lit "msgstr " ++ quoted t) (lit "msgstr " ++ quoted t)) as Hrepl.
  { apply expands_plain. change (lit "msgstr " ++ quoted t)
      with (msgstr_open ++ t ++ [DQ]).
    apply Forall_app. split; [repeat constructor; discriminate|].
    apply Forall_app. split; [exact Ht|repeat constructor; discriminate]. }
  destruct (@expands_parse _ _ 1 Hrepl) as (tpl & -> & _).
  now rewrite (@matches_absent msgstr_field block match_at_msgstr_field_needs_open
                 Habsent).
Qed.

Lemma translate_block_without_field_asks_in_vain_witness :
  translate_block echo_translator plural_block [lit "One file"] (World [] no_files)
  = (Return plural_block, World [lit "One file"] no_files).
Proof.
  apply (@translate_block_without_field_asks_in_vain echo_translator plural_block
           (lit "One file") [] (lit "One file") (World [] no_files)).
  - vm_compute. reflexivity.
  - reflexivity.
  - repeat constructor; discriminate.
Defined.
